(** * MinHeap and Queue: a shallow embedding of the JavaScript sources

    The repository holds a binary min-heap stored in an array whose slot 0
    is a [null] placeholder, an earlier draft of the same heap whose
    [insert] recomputes the parent index differently, and two FIFO queues
    (one over an array, one over linked nodes).

    A number is an integer [Z] or [NaN]; the comparisons [<] and [<=] are
    the JavaScript ones, which convert [null] to [0] and are [false] as soon
    as one side is [undefined] or [NaN]. *)

From Stdlib Require Import ZifyNat.
From stdpp Require Import base numbers option list sorting gmap.

Local Open Scope nat_scope.

(** ** JavaScript values and arrays *)

(** What a slot, a return value or a read can hold: [null], [undefined],
    the number [NaN], or a proper item (in the heap: an integer). *)
Inductive jsval (A : Type) : Type :=
  | Null : jsval A
  | Undefined : jsval A
  | NaN : jsval A
  | Val (a : A) : jsval A.

Arguments Null {A}.
Arguments Undefined {A}.
Arguments NaN {A}.
Arguments Val {A} a.

Abbreviation value := (jsval Z).

(** ToNumber, as far as a comparison looks at it: [null] is [+0],
    [undefined] is [NaN], and [NaN] (here [None]) makes every comparison
    false. *)
Definition to_number (v : value) : option Z :=
  match v with
  | Null => Some 0%Z
  | Undefined => None
  | NaN => None
  | Val z => Some z
  end.

(** [a < b] of JavaScript. *)
Definition js_lt (a b : value) : bool :=
  match to_number a, to_number b with
  | Some x, Some y => bool_decide (x < y)%Z
  | _, _ => false
  end.

(** [a <= b] of JavaScript. *)
Definition js_le (a b : value) : bool :=
  match to_number a, to_number b with
  | Some x, Some y => bool_decide (x ≤ y)%Z
  | _, _ => false
  end.

(** [a >= b] of JavaScript. *)
Definition js_ge (a b : value) : bool := js_le b a.

Section Arrays.
Context {A : Type}.

(** [arr[i]]: reading outside the array gives [undefined]. *)
Definition arr_get (arr : list (jsval A)) (i : nat) : jsval A :=
  default Undefined (arr !! i).

(** [arr[i] = v]: writing past the end grows the array, the skipped
    slots read as [undefined]. *)
Definition arr_set (arr : list (jsval A)) (i : nat) (v : jsval A)
  : list (jsval A) :=
  if decide (i < length arr) then <[i := v]> arr
  else arr ++ replicate (i - length arr) Undefined ++ [v].

(** [arr.push(v)] *)
Definition push (arr : list (jsval A)) (v : jsval A) : list (jsval A) :=
  arr ++ [v].

(** [arr.pop()]: the removed last element ([undefined] on an empty
    array) and the array that is left. *)
Definition pop (arr : list (jsval A)) : jsval A * list (jsval A) :=
  (default Undefined (last arr), removelast arr).

(** [[arr[i], arr[j]] = [arr[j], arr[i]]]: both reads happen first,
    then slot [i] and slot [j] are written in this order. *)
Definition swap (arr : list (jsval A)) (i j : nat) : list (jsval A) :=
  let vi := arr_get arr i in
  let vj := arr_get arr j in
  arr_set (arr_set arr i vj) j vi.
End Arrays.

(** ** MinHeap (the complete class, with [extract] and [shiftDown]) *)

Module MinHeap.

(** [this.heap] *)
Definition heap := list value.

(** [constructor()]: [this.heap = [null]] *)
Definition new : heap := [Null].

(** The size the specification speaks of (the class has no method for
    it): the length of the array without its placeholder slot. *)
Definition size (h : heap) : nat := length h - 1.

Definition idxOfLeftChild (i : nat) : nat := i * 2.
Definition idxOfRightChild (i : nat) : nat := i * 2 + 1.

(** [Math.floor(i / 2)] on an index *)
Definition idxOfParent (i : nat) : nat := i / 2.

(** [top()] *)
Definition top (h : heap) : value * heap := (arr_get h 1, h).

(** The [while] loop of [insert]. The test comes first, as in the
    source; [None] means that [fuel] iterations were not enough. *)
Fixpoint shiftUp (fuel : nat) (h : heap) (currentIdx parentIdx : nat)
  : option heap :=
  if js_lt (arr_get h currentIdx) (arr_get h parentIdx) then
    match fuel with
    | 0 => None
    | S fuel' =>
        let h' := swap h currentIdx parentIdx in
        let currentIdx' := parentIdx in
        let parentIdx' := idxOfParent currentIdx' in
        shiftUp fuel' h' currentIdx' parentIdx'
    end
  else Some h.

(** [insert(num)]: the argument is pushed as it is, whatever it is. *)
Definition insert (num : value) (h : heap) : option heap :=
  let h1 := push h num in
  let currentIdx := length h1 - 1 in
  let parentIdx := idxOfParent (length h1 - 1) in
  shiftUp (length h1) h1 currentIdx parentIdx.

(** The [while] loop of [shiftDown]. *)
Fixpoint shiftDown_loop (fuel : nat) (h : heap)
    (idxOfNodeToShiftDown idxOfLeft : nat) : option heap :=
  if decide (idxOfLeft < length h) then
    match fuel with
    | 0 => None
    | S fuel' =>
        let idxOfRight := idxOfRightChild idxOfNodeToShiftDown in
        let isRightChildInBounds := bool_decide (idxOfRight < length h) in
        let isRightChildSmaller :=
          isRightChildInBounds &&
          js_lt (arr_get h idxOfRight) (arr_get h idxOfLeft) in
        let idxOfSmallestChild :=
          if isRightChildSmaller then idxOfRight else idxOfLeft in
        let isParentSmallerOrEqual :=
          js_le (arr_get h idxOfNodeToShiftDown)
                (arr_get h idxOfSmallestChild) in
        if isParentSmallerOrEqual then Some h
        else
          let h' := swap h idxOfNodeToShiftDown idxOfSmallestChild in
          shiftDown_loop fuel' h' idxOfSmallestChild
                         (idxOfLeftChild idxOfSmallestChild)
    end
  else Some h.

(** [shiftDown()] *)
Definition shiftDown (h : heap) : option heap :=
  shiftDown_loop (length h) h 1 (idxOfLeftChild 1).

(** [extract()]: the returned value and the new array. *)
Definition extract (h : heap) : option (value * heap) :=
  if decide (length h = 1) then Some (Null, h)
  else
    let min := arr_get h 1 in
    let '(lastNode, h1) := pop h in
    if decide (length h1 = 1) then Some (min, h1)
    else
      let h2 := arr_set h1 1 lastNode in
      h3 ← shiftDown h2;
      Some (min, h3).

(** Calls a client can make, [insert] with an integer. *)
Inductive call : Type :=
  | CTop
  | CInsert (num : Z)
  | CExtract.

(** One call: what it returns ([insert] returns [undefined]) and the
    array afterwards. *)
Definition step (c : call) (h : heap) : option (value * heap) :=
  match c with
  | CTop => Some (top h)
  | CInsert num => h' ← insert (Val num) h; Some (Undefined, h')
  | CExtract => extract h
  end.

(** A sequence of calls, first call first: the values returned, in
    order, and the final array. *)
Fixpoint run (cs : list call) (h : heap) : option (list value * heap) :=
  match cs with
  | [] => Some ([], h)
  | c :: cs' =>
      '(v, h') ← step c h;
      '(vs, h'') ← run cs' h';
      Some (v :: vs, h'')
  end.

(** The driver at the end of the file: insert every element of a list,
    in order. *)
Definition insert_all (nums : list Z) (h : heap) : option heap :=
  foldl (λ acc num, acc ≫= insert (Val num)) (Some h) nums.

(** [n] calls of [extract]. *)
Definition extract_n (n : nat) (h : heap) : option (list value * heap) :=
  run (replicate n CExtract) h.

End MinHeap.

(** ** MinHeap, the earlier draft (only [insert] is written there) *)

Module MinHeapDraft.

Definition heap := list value.

(** [constructor()] *)
Definition new : heap := [Null].

(** [this.heap[i]] for an index that may have gone below zero: an
    array has no element there and the read gives [undefined]. *)
Definition arr_getZ (h : heap) (i : Z) : value :=
  if decide (i < 0)%Z then Undefined else arr_get h (Z.to_nat i).

(** The [while] loop of [insert]; [Z.div] rounds down like
    [Math.floor]. The swap runs only after the test succeeded, which
    needs both slots to hold a defined value, so both indices are
    inside the array at that point (lemma [draft_test_in_bounds]). *)
Fixpoint shiftUp (fuel : nat) (h : heap) (currentIdx parentIdx : Z)
  : option heap :=
  if js_lt (arr_getZ h currentIdx) (arr_getZ h parentIdx) then
    match fuel with
    | 0 => None
    | S fuel' =>
        let h' := swap h (Z.to_nat currentIdx) (Z.to_nat parentIdx) in
        let currentIdx' := parentIdx in
        let parentIdx' := ((currentIdx' - 1) / 2)%Z in
        shiftUp fuel' h' currentIdx' parentIdx'
    end
  else Some h.

(** [insert(num)]; the [console.log] of the two indices is output only
    and is left out. *)
Definition insert (num : Z) (h : heap) : option heap :=
  let h1 := push h (Val num) in
  let currentIdx := (Z.of_nat (length h1) - 1)%Z in
  let parentIdx := ((Z.of_nat (length h1) - 1) / 2)%Z in
  shiftUp (length h1) h1 currentIdx parentIdx.

Definition insert_all (nums : list Z) (h : heap) : option heap :=
  foldl (λ acc num, acc ≫= insert num) (Some h) nums.

End MinHeapDraft.

(** ** Queue over an array *)

Module Queue.
Section Queue.
Context {A : Type}.

(** [this.items] *)
Definition queue := list (jsval A).

(** [constructor()] *)
Definition new : queue := [].

Definition size (q : queue) : nat := length q.

Definition isEmpty (q : queue) : bool := bool_decide (length q = 0).

(** [arr.shift()]: the removed first element ([undefined] on an empty
    array) and the array that is left. *)
Definition shift (arr : list (jsval A)) : jsval A * list (jsval A) :=
  match arr with
  | [] => (Undefined, [])
  | x :: rest => (x, rest)
  end.

(** [enqueue(item)]: the new size and the new state. *)
Definition enqueue (item : jsval A) (q : queue) : nat * queue :=
  let q' := push q item in
  (size q', q').

(** [dequeue()] *)
Definition dequeue (q : queue) : jsval A * queue := shift q.

(** [front()] *)
Definition front (q : queue) : jsval A := arr_get q 0.
End Queue.
End Queue.

(** ** Queue over linked nodes *)

Module LinkedListQueue.
Section LinkedListQueue.
Context {A : Type}.

(** [class QueueNode]. A node object is known by its identity, a
    [positive]; [next] is [null] ([None]) or a node. *)
Record QueueNode : Type := mkNode {
  data : jsval A;
  next : option positive;
}.

(** The fields of the queue object together with the node objects
    created so far, which [head], [tail] and [next] point into. *)
Record queue : Type := mkQueue {
  head : option positive;
  tail : option positive;
  size : Z;
  nodes : gmap positive QueueNode;
}.

(** [constructor()] *)
Definition new : queue :=
  {| head := None; tail := None; size := 0; nodes := ∅ |}.

(** [isEmpty()] *)
Definition isEmpty (q : queue) : bool :=
  match head q with None => true | Some _ => false end.

(** [enqueue(val)]: the new size and the new state; [None] stands for
    the TypeError of [this.tail.next = ...] on a [null] tail. *)
Definition enqueue (val : jsval A) (q : queue) : option (Z * queue) :=
  let newTail := fresh (dom (nodes q)) in
  let nodes1 := <[newTail := mkNode val None]> (nodes q) in
  if isEmpty q then
    Some ((size q + 1)%Z,
          {| head := Some newTail; tail := Some newTail;
             size := (size q + 1)%Z; nodes := nodes1 |})
  else
    t ← tail q;
    let nodes2 := alter (λ n, mkNode (data n) (Some newTail)) t nodes1 in
    Some ((size q + 1)%Z,
          {| head := head q; tail := Some newTail;
             size := (size q + 1)%Z; nodes := nodes2 |}).

(** [dequeue()]: the returned value and the new state. A reference
    always leads to its object, so [None] (no object behind [head])
    cannot happen in a running program. *)
Definition dequeue (q : queue) : option (jsval A * queue) :=
  match head q with
  | None => Some (Null, q)
  | Some dequeued =>
      n ← nodes q !! dequeued;
      let head' := next n in
      let tail' := match head' with None => None | Some _ => tail q end in
      Some (data n,
            {| head := head'; tail := tail';
               size := (size q - 1)%Z; nodes := nodes q |})
  end.

(** [front()] *)
Definition front (q : queue) : option (jsval A) :=
  match head q with
  | None => Some Null
  | Some l => n ← nodes q !! l; Some (data n)
  end.
End LinkedListQueue.
End LinkedListQueue.

Arguments LinkedListQueue.QueueNode : clear implicits.
Arguments LinkedListQueue.queue : clear implicits.
Arguments Queue.queue : clear implicits.

(** ** Clients of a queue *)

(** Calls a client can make on either queue. *)
Inductive qcall (A : Type) : Type :=
  | Enqueue (item : jsval A)
  | Dequeue.

Arguments Enqueue {A} item.
Arguments Dequeue {A}.

(** The items handed to [enqueue], in call order. *)
Fixpoint enqueued {A} (cs : list (qcall A)) : list (jsval A) :=
  match cs with
  | [] => []
  | Enqueue item :: cs' => item :: enqueued cs'
  | Dequeue :: cs' => enqueued cs'
  end.

(** Running calls on the array queue: the items returned by the
    [dequeue] calls that found the queue non-empty, in call order, and
    the final state. *)
Fixpoint run_queue {A} (cs : list (qcall A)) (q : Queue.queue A)
  : list (jsval A) * Queue.queue A :=
  match cs with
  | [] => ([], q)
  | Enqueue item :: cs' => run_queue cs' (snd (Queue.enqueue item q))
  | Dequeue :: cs' =>
      let '(v, q') := Queue.dequeue q in
      let '(vs, q'') := run_queue cs' q' in
      (if Queue.isEmpty q then vs else v :: vs, q'')
  end.

(** The same on the linked queue. *)
Fixpoint run_linked {A} (cs : list (qcall A)) (q : LinkedListQueue.queue A)
  : option (list (jsval A) * LinkedListQueue.queue A) :=
  match cs with
  | [] => Some ([], q)
  | Enqueue item :: cs' =>
      '(_, q') ← LinkedListQueue.enqueue item q;
      run_linked cs' q'
  | Dequeue :: cs' =>
      '(v, q') ← LinkedListQueue.dequeue q;
      '(vs, q'') ← run_linked cs' q';
      Some (if LinkedListQueue.isEmpty q then vs else v :: vs, q'')
  end.

(** ** Predicates used in the statements *)

(** The number a defined value stands for in a comparison. *)
Definition key (v : value) : Z := default 0%Z (to_number v).

(** A value that a comparison can order: neither [undefined] nor
    [NaN]. *)
Definition is_defined {A} (v : jsval A) : Prop :=
  match v with
  | Undefined | NaN => False
  | _ => True
  end.

Definition is_number (v : value) : bool :=
  match v with Val _ | NaN => true | _ => false end.

(** Heap order as the specification words it: every slot after the
    root is [>=] its parent slot. *)
Definition heap_order (h : list value) : Prop :=
  ∀ i, 1 < i → i < length h →
    js_ge (arr_get h i) (arr_get h (i / 2)) = true.

(** Every slot holds [null] or an integer. *)
Definition all_defined (h : list value) : Prop :=
  ∀ i, i < length h → is_defined (arr_get h i).

(** Order down from slot 0: every slot is at least its parent slot,
    slot 1 having slot 0 as parent. *)
Definition ordered (h : list value) : Prop :=
  ∀ i, i < length h → (key (arr_get h (i / 2)) ≤ key (arr_get h i))%Z.

(** Order everywhere except between slot [c] and its parent, whose
    other relatives are already in order with each other. *)
Definition up_inv (h : list value) (c : nat) : Prop :=
  (∀ i, i < length h → i ≠ c →
     (key (arr_get h (i / 2)) ≤ key (arr_get h i))%Z) ∧
  (∀ d, d < length h → d / 2 = c → d ≠ c →
     (key (arr_get h (c / 2)) ≤ key (arr_get h d))%Z).

(** Order everywhere except between slot [p] and its children, which
    are already in order with the parent of [p]. *)
Definition down_inv (h : list value) (p : nat) : Prop :=
  (∀ i, i < length h → i / 2 ≠ p →
     (key (arr_get h (i / 2)) ≤ key (arr_get h i))%Z) ∧
  (∀ d, d < length h → d / 2 = p →
     (key (arr_get h (p / 2)) ≤ key (arr_get h d))%Z).

(** The placeholder is in slot 0 and every other slot holds a number
    that is not negative. *)
Definition sentinel_ok (h : list value) : Prop :=
  arr_get h 0 = Null ∧
  ∀ i, 0 < i → i < length h → ∃ z, arr_get h i = Val z ∧ (0 ≤ z)%Z.

(** What every call keeps true of the array. *)
Definition well_formed (h : list value) : Prop :=
  1 ≤ length h ∧ all_defined h ∧ ordered h.

(** *** Sift-down as the specification words it *)

(** The child the node at [i] is compared with: the right one when it
    is inside the array and strictly smaller than the left one, the
    left one when the right one is absent or not strictly smaller. *)
Definition chosen_child (h : list value) (i c : nat) : Prop :=
  i * 2 < length h ∧
  ((c = i * 2 + 1 ∧ i * 2 + 1 < length h ∧
    js_lt (arr_get h (i * 2 + 1)) (arr_get h (i * 2)) = true) ∨
   (c = i * 2 ∧
    (length h ≤ i * 2 + 1 ∨
     js_lt (arr_get h (i * 2 + 1)) (arr_get h (i * 2)) = false))).

(** What the specification calls swapping the node at [i] with its
    child at [c]: the two slots have exchanged their contents and no
    other slot has changed. *)
Definition exchanged (h : list value) (i c : nat) (h' : list value)
  : Prop :=
  length h' = length h ∧
  arr_get h' i = arr_get h c ∧
  arr_get h' c = arr_get h i ∧
  ∀ k, k ≠ i → k ≠ c → arr_get h' k = arr_get h k.

(** Sifting the node at [i] down: stop when it has no child or is [<=]
    the chosen child, otherwise swap with that child and go on there. *)
Inductive sift_down : list value → nat → list value → Prop :=
  | sift_no_child h i :
      length h ≤ i * 2 → sift_down h i h
  | sift_stop h i c :
      chosen_child h i c →
      js_le (arr_get h i) (arr_get h c) = true →
      sift_down h i h
  | sift_swap h i c h1 h' :
      chosen_child h i c →
      js_le (arr_get h i) (arr_get h c) = false →
      exchanged h i c h1 →
      sift_down h1 c h' →
      sift_down h i h'.

(** *** The linked queue as a list *)

(** The nodes [ls] hold the items [vs] and are chained from [start] to
    [null]. *)
Fixpoint chain {A} (m : gmap positive (LinkedListQueue.QueueNode A))
    (start : option positive) (ls : list positive) (vs : list (jsval A))
  : Prop :=
  match ls, vs with
  | [], [] => start = None
  | l :: ls', v :: vs' =>
      start = Some l ∧
      ∃ nx, m !! l = Some (LinkedListQueue.mkNode v nx) ∧ chain m nx ls' vs'
  | _, _ => False
  end.

(** The queue object represents the items [vs], first to leave first. *)
Definition represents {A} (q : LinkedListQueue.queue A)
    (vs : list (jsval A)) : Prop :=
  ∃ ls, chain (LinkedListQueue.nodes q) (LinkedListQueue.head q) ls vs ∧
        NoDup ls ∧
        LinkedListQueue.tail q = last ls ∧
        LinkedListQueue.size q = Z.of_nat (length vs).

(** The index [shiftDown] names [idxOfSmallestChild] when the node at
    [p] has a left child. *)
Definition smallest_child (h : list value) (p : nat) : nat :=
  if bool_decide (p * 2 + 1 < length h) &&
     js_lt (arr_get h (p * 2 + 1)) (arr_get h (p * 2))
  then p * 2 + 1 else p * 2.

(** *** The heap as the specification describes it: a bag of numbers *)

(** The smallest number of a bag, if it has one. *)
Definition spec_minimum (s : list Z) : option Z :=
  match s with
  | [] => None
  | x :: rest => Some (foldr Z.min x rest)
  end.

(** The bag without one copy of [z]. *)
Fixpoint spec_remove (z : Z) (s : list Z) : list Z :=
  match s with
  | [] => []
  | x :: rest => if decide (x = z) then rest else x :: spec_remove z rest
  end.

(** One call on the bag: [top] gives the minimum stored, [insert] adds
    a number, [extract] gives the minimum stored and takes it out; on
    the empty bag [top] and [extract] signal absence as the code does,
    with [undefined] and [null]. *)
Definition spec_step (c : MinHeap.call) (s : list Z) : value * list Z :=
  match c with
  | MinHeap.CTop =>
      (match spec_minimum s with Some m => Val m | None => Undefined end, s)
  | MinHeap.CInsert num => (Undefined, num :: s)
  | MinHeap.CExtract =>
      match spec_minimum s with
      | Some m => (Val m, spec_remove m s)
      | None => (Null, s)
      end
  end.

Fixpoint spec_run (cs : list MinHeap.call) (s : list Z)
  : list value * list Z :=
  match cs with
  | [] => ([], s)
  | c :: cs' =>
      let '(v, s') := spec_step c s in
      let '(vs, s'') := spec_run cs' s' in
      (v :: vs, s'')
  end.

(** ** The tree dump of MinHeap *)

(** One logged line, [" ".repeat(n) + `${value} (${index})`], kept as
    its three parts: the number of leading spaces, the slot's content
    and the slot's index. *)
Record line : Type := mkLine {
  line_indent : Z;
  line_value : value;
  line_index : nat;
}.

(** [printHorizontalTree(parentIdx, spaceCnt, spaceIncr)]: the lines
    logged, first line first. The recursive calls pass two arguments, so
    [spaceIncr] is the default 10 in them whatever the caller gave.
    [None] means that the nesting went deeper than [fuel]. *)
Fixpoint printHorizontalTree (fuel : nat) (h : list value)
    (parentIdx : nat) (spaceCnt spaceIncr : Z) : option (list line) :=
  if decide (Z.of_nat (length h) - 1 < Z.of_nat parentIdx)%Z then Some []
  else
    match fuel with
    | 0 => None
    | S fuel' =>
        let spaceCnt' := (spaceCnt + spaceIncr)%Z in
        above ← printHorizontalTree fuel' h (parentIdx * 2 + 1) spaceCnt' 10;
        let logged :=
          mkLine (if decide (spaceCnt' < spaceIncr)%Z then 0%Z
                  else (spaceCnt' - spaceIncr)%Z)
                 (arr_get h parentIdx) parentIdx in
        below ← printHorizontalTree fuel' h (parentIdx * 2) spaceCnt' 10;
        Some (above ++ [logged] ++ below)
    end.

(** [MH.printHorizontalTree()], all three parameters at their defaults. *)
Definition printTree (h : list value) : option (list line) :=
  printHorizontalTree (length h) h 1 0 10.

(** Slot [i] lies in the subtree of slot [p]: halving [i] some number of
    times gives [p]. *)
Definition in_subtree (p i : nat) : Prop := ∃ k, i / 2 ^ k = p.

(** ** [seed] of the linked queue *)

(** [seed(vals)]: [vals.forEach((val) => this.enqueue(val))]. The
    array [vals] may have holes ([None]); [forEach] passes them over, so
    only the elements that are there are enqueued, while [vals.length]
    counts the holes too. *)
Fixpoint seed {A} (vals : list (option (jsval A)))
    (q : LinkedListQueue.queue A) : option (LinkedListQueue.queue A) :=
  match vals with
  | [] => Some q
  | None :: rest => seed rest q
  | Some val :: rest =>
      '(_, q') ← LinkedListQueue.enqueue val q;
      seed rest q'
  end.

(** [n] calls of [dequeue] on the linked queue: what they return, in
    order, and the state they leave. *)
Fixpoint dequeue_n {A} (n : nat) (q : LinkedListQueue.queue A)
  : option (list (jsval A) * LinkedListQueue.queue A) :=
  match n with
  | 0 => Some ([], q)
  | S n' =>
      '(v, q') ← LinkedListQueue.dequeue q;
      '(vs, q'') ← dequeue_n n' q';
      Some (v :: vs, q'')
  end.

(** ** Book-keeping over a sequence of heap calls *)

(** The numbers handed to [insert], in call order. *)
Fixpoint inserted (cs : list MinHeap.call) : list Z :=
  match cs with
  | [] => []
  | MinHeap.CInsert num :: cs' => num :: inserted cs'
  | _ :: cs' => inserted cs'
  end.

(** What the [extract] calls return that find more than the placeholder
    slot in the array, in call order. *)
Fixpoint taken (cs : list MinHeap.call) (h : list value)
  : option (list value) :=
  match cs with
  | [] => Some []
  | c :: cs' =>
      '(v, h') ← MinHeap.step c h;
      vs ← taken cs' h';
      Some (match c with
            | MinHeap.CExtract =>
                if decide (length h = 1) then vs else v :: vs
            | _ => vs
            end)
  end.

(** * Properties *)

Example driver_round_trip :
  (MinHeap.insert_all [5; 3; 2; 7; 8; 23; 2; 3]%Z MinHeap.new
     ≫= MinHeap.extract_n 8)
  = Some (Val <$> [2; 2; 3; 3; 5; 7; 8; 23]%Z, MinHeap.new).
Proof. vm_compute. reflexivity. Qed.

(** ** Facts about values and arrays *)

Lemma js_lt_key a b :
  is_defined a → is_defined b → js_lt a b = bool_decide (key a < key b)%Z.
Proof. by destruct a, b. Qed.

Lemma js_le_key a b :
  is_defined a → is_defined b → js_le a b = bool_decide (key a ≤ key b)%Z.
Proof. by destruct a, b. Qed.

Lemma js_lt_irrefl a : js_lt a a = false.
Proof.
  destruct a as [| | |z]; unfold js_lt; simpl; try done;
    apply bool_decide_eq_false; lia.
Qed.

Lemma js_lt_true_key a b : js_lt a b = true → (key a < key b)%Z.
Proof.
  unfold js_lt, key.
  destruct (to_number a), (to_number b); simpl; try done.
  by intros ?%bool_decide_eq_true.
Qed.

Lemma js_lt_true_defined a b :
  js_lt a b = true → is_defined a ∧ is_defined b.
Proof. by destruct a, b. Qed.

Section ArrayFacts.
Context {A : Type}.
Implicit Types (arr : list (jsval A)) (v : jsval A) (i j k : nat).

Lemma arr_get_lookup arr i v : arr !! i = Some v → arr_get arr i = v.
Proof. unfold arr_get. by intros ->. Qed.

Lemma arr_get_lt arr i : i < length arr → arr !! i = Some (arr_get arr i).
Proof.
  intros [v Hv]%lookup_lt_is_Some_2. by rewrite (arr_get_lookup _ _ _ Hv).
Qed.

Lemma arr_get_ge arr i : length arr ≤ i → arr_get arr i = Undefined.
Proof. intros H. unfold arr_get. by rewrite lookup_ge_None_2. Qed.

Lemma arr_set_lt arr i v : i < length arr → arr_set arr i v = <[i := v]> arr.
Proof. intros H. unfold arr_set. by rewrite decide_True. Qed.

Lemma length_arr_set_lt arr i v :
  i < length arr → length (arr_set arr i v) = length arr.
Proof. intros H. by rewrite arr_set_lt, length_insert. Qed.

Lemma arr_get_set_lt arr i k v :
  i < length arr →
  arr_get (arr_set arr i v) k = if decide (k = i) then v else arr_get arr k.
Proof.
  intros H. rewrite arr_set_lt by done. unfold arr_get.
  destruct (decide (k = i)) as [->|Hne].
  - by rewrite list_lookup_insert_eq.
  - by rewrite list_lookup_insert_ne.
Qed.

Lemma length_swap arr i j :
  i < length arr → j < length arr → length (swap arr i j) = length arr.
Proof.
  intros Hi Hj. unfold swap.
  rewrite length_arr_set_lt; rewrite length_arr_set_lt; done.
Qed.

Lemma arr_get_swap arr i j k :
  i < length arr → j < length arr →
  arr_get (swap arr i j) k =
    if decide (k = j) then arr_get arr i
    else if decide (k = i) then arr_get arr j
    else arr_get arr k.
Proof.
  intros Hi Hj. unfold swap.
  rewrite arr_get_set_lt by (by rewrite length_arr_set_lt).
  destruct (decide (k = j)); [done|].
  by rewrite arr_get_set_lt.
Qed.

Lemma length_push arr v : length (push arr v) = S (length arr).
Proof. unfold push. rewrite length_app. simpl. lia. Qed.

Lemma arr_get_push arr v k :
  arr_get (push arr v) k =
    if decide (k = length arr) then v else arr_get arr k.
Proof.
  unfold arr_get, push. destruct (decide (k = length arr)) as [->|Hne].
  - by rewrite list_lookup_middle.
  - destruct (decide (k < length arr)).
    + by rewrite lookup_app_l.
    + rewrite !lookup_ge_None_2; [done|lia|].
      rewrite length_app. simpl. lia.
Qed.

Lemma pop_snoc arr v : pop (arr ++ [v]) = (v, arr).
Proof. unfold pop. by rewrite last_snoc, removelast_last. Qed.

Lemma pop_nonempty arr :
  0 < length arr →
  ∃ v arr', arr = arr' ++ [v] ∧ pop arr = (v, arr').
Proof.
  intros H. destruct arr as [|x arr] using rev_ind; [simpl in H; lia|].
  exists x, arr. split; [done|]. apply pop_snoc.
Qed.
End ArrayFacts.

(** ** The sift-up loop of [MinHeap.insert] *)

Section SiftUp.
Import MinHeap.
Implicit Types (h : list value) (i j c p : nat).

Lemma shiftUp_eq fuel h c p :
  shiftUp fuel h c p =
    if js_lt (arr_get h c) (arr_get h p) then
      match fuel with
      | 0 => None
      | S fuel' => shiftUp fuel' (swap h c p) p (p / 2)
      end
    else Some h.
Proof. by destruct fuel. Qed.

Lemma js_lt_in_bounds h i j :
  js_lt (arr_get h i) (arr_get h j) = true → i < length h ∧ j < length h.
Proof.
  intros [Hi Hj]%js_lt_true_defined.
  split; apply Nat.lt_nge; intros Hge; apply (arr_get_ge h) in Hge;
    [by rewrite Hge in Hi|by rewrite Hge in Hj].
Qed.

Lemma all_defined_swap h i j :
  i < length h → j < length h → all_defined h → all_defined (swap h i j).
Proof.
  intros Hi Hj Hd k Hk. rewrite length_swap in Hk by done.
  rewrite arr_get_swap by done. repeat case_decide; apply Hd; lia.
Qed.

Lemma js_lt_false_key h i j :
  all_defined h → i < length h → j < length h →
  js_lt (arr_get h i) (arr_get h j) = false →
  (key (arr_get h j) ≤ key (arr_get h i))%Z.
Proof.
  intros Hd Hi Hj. rewrite js_lt_key by (by apply Hd).
  intros ?%bool_decide_eq_false. lia.
Qed.

(** A failed test closes the gap that [up_inv] leaves open. *)
Lemma up_inv_done h c :
  all_defined h →
  js_lt (arr_get h c) (arr_get h (c / 2)) = false →
  up_inv h c → ordered h.
Proof.
  intros Hd Hlt [H1 _] i Hi. destruct (decide (i = c)) as [->|Hne].
  - apply js_lt_false_key; [done|done|lia|done].
  - by apply H1.
Qed.

(** One swap moves the gap from [c] to its parent. *)
Lemma up_inv_step h c :
  js_lt (arr_get h c) (arr_get h (c / 2)) = true →
  up_inv h c → up_inv (swap h c (c / 2)) (c / 2).
Proof.
  intros Hlt [H1 H2].
  destruct (js_lt_in_bounds _ _ _ Hlt) as [Hc Hp].
  apply js_lt_true_key in Hlt.
  remember (c / 2) as p eqn:Ep.
  assert (c ≠ p) as Hcp by (intros ->; lia).
  assert (p < c) as Hpc by lia.
  split.
  - intros i Hi Hip. rewrite length_swap in Hi by done.
    rewrite !arr_get_swap by done.
    pose proof (H1 i Hi) as H1i. pose proof (H2 i Hi) as H2i.
    destruct (decide (i / 2 = p)) as [E|E]; [rewrite E in *|];
      (destruct (decide (i / 2 = c)) as [E'|E']; [rewrite E' in *|]);
      repeat case_decide; subst; try lia.
  - intros d Hd Hdp Hne. rewrite length_swap in Hd by done.
    rewrite !arr_get_swap by done.
    pose proof (H1 d Hd) as H1d. rewrite Hdp in H1d.
    pose proof (H1 p Hp) as H1p.
    destruct (decide (p / 2 = p)) as [E|E]; [rewrite E in *|];
      repeat case_decide; subst; try lia.
Qed.

Lemma shiftUp_ordered fuel : ∀ h c h',
  shiftUp fuel h c (c / 2) = Some h' →
  all_defined h → up_inv h c →
  length h' = length h ∧ all_defined h' ∧ ordered h'.
Proof.
  induction fuel as [|fuel IH]; intros h c h' Hrun Hd Hinv;
    rewrite shiftUp_eq in Hrun;
    destruct (js_lt (arr_get h c) (arr_get h (c / 2))) eqn:Hlt;
    simplify_eq.
  - eauto using up_inv_done.
  - destruct (js_lt_in_bounds _ _ _ Hlt) as [Hc Hp].
    apply IH in Hrun as (Hlen & Hd' & Ho).
    + rewrite length_swap in Hlen by done. done.
    + by apply all_defined_swap.
    + by apply up_inv_step.
  - eauto using up_inv_done.
Qed.

(** The loop ends: the parent index halves at every turn, and at the
    root the slot is compared with itself. *)
Lemma shiftUp_total fuel : ∀ h c p,
  p < fuel → is_Some (shiftUp fuel h c p).
Proof.
  induction fuel as [|fuel IH]; intros h c p Hp; [lia|].
  rewrite shiftUp_eq. destruct (js_lt _ _); [|by eexists].
  destruct (decide (p = 0)) as [->|Hne].
  - change (0 / 2) with 0.
    rewrite shiftUp_eq, js_lt_irrefl. by eexists.
  - apply IH. lia.
Qed.

Lemma insert_total num h : is_Some (insert num h).
Proof.
  unfold insert. apply shiftUp_total. rewrite length_push.
  unfold idxOfParent. lia.
Qed.

Lemma all_defined_push h v :
  is_defined v → all_defined h → all_defined (push h v).
Proof.
  intros Hv Hd i Hi. rewrite length_push in Hi. rewrite arr_get_push.
  case_decide; [done|]. apply Hd. lia.
Qed.

Lemma up_inv_push h v : ordered h → up_inv (push h v) (length h).
Proof.
  intros Ho. split.
  - intros i Hi Hne. rewrite length_push in Hi.
    rewrite !arr_get_push. rewrite !decide_False by lia. apply Ho. lia.
  - intros d Hd Hd2 Hne. rewrite length_push in Hd. lia.
Qed.

Lemma insert_ordered num h h' :
  is_defined num →
  insert num h = Some h' →
  all_defined h → ordered h →
  length h' = S (length h) ∧ all_defined h' ∧ ordered h'.
Proof.
  unfold insert. rewrite length_push. unfold idxOfParent.
  replace (S (length h) - 1) with (length h) by lia.
  intros Hnum Hrun Hd Ho. apply shiftUp_ordered in Hrun.
  - by rewrite length_push in Hrun.
  - by apply all_defined_push.
  - by apply up_inv_push.
Qed.
End SiftUp.

(** ** The sift-down loop of [MinHeap.extract] *)

Section SiftDown.
Import MinHeap.
Implicit Types (h : list value) (i j c p : nat).

Lemma shiftDown_loop_eq fuel h p l :
  shiftDown_loop fuel h p l =
    if decide (l < length h) then
      match fuel with
      | 0 => None
      | S fuel' =>
          let c := if bool_decide (p * 2 + 1 < length h) &&
                      js_lt (arr_get h (p * 2 + 1)) (arr_get h l)
                   then p * 2 + 1 else l in
          if js_le (arr_get h p) (arr_get h c) then Some h
          else shiftDown_loop fuel' (swap h p c) c (c * 2)
      end
    else Some h.
Proof. by destruct fuel. Qed.

Lemma smallest_child_cases h p :
  p * 2 < length h →
  (smallest_child h p = p * 2 ∨ smallest_child h p = p * 2 + 1) ∧
  smallest_child h p < length h.
Proof.
  intros Hl. unfold smallest_child.
  destruct (bool_decide (p * 2 + 1 < length h)) eqn:Hb; simpl;
    [apply bool_decide_eq_true in Hb|]; [|lia].
  destruct (js_lt _ _); lia.
Qed.

Lemma smallest_child_min h p d :
  all_defined h → p * 2 < length h →
  d < length h → d / 2 = p →
  (key (arr_get h (smallest_child h p)) ≤ key (arr_get h d))%Z.
Proof.
  intros Hdef Hl Hd Hdp. unfold smallest_child.
  assert (d = p * 2 ∨ d = p * 2 + 1) as Hcases by lia.
  destruct (bool_decide (p * 2 + 1 < length h)) eqn:Hb; simpl.
  - apply bool_decide_eq_true in Hb.
    destruct (js_lt _ _) eqn:Hlt.
    + apply js_lt_true_key in Hlt. destruct Hcases as [->| ->]; lia.
    + apply js_lt_false_key in Hlt; [|done..].
      destruct Hcases as [->| ->]; lia.
  - apply bool_decide_eq_false in Hb. destruct Hcases as [->| ->]; lia.
Qed.

Lemma js_le_true_key a b : js_le a b = true → (key a ≤ key b)%Z.
Proof.
  unfold js_le, key.
  destruct (to_number a), (to_number b); simpl; try done.
  by intros ?%bool_decide_eq_true.
Qed.

Lemma js_le_false_key h i j :
  all_defined h → i < length h → j < length h →
  js_le (arr_get h i) (arr_get h j) = false →
  (key (arr_get h j) < key (arr_get h i))%Z.
Proof.
  intros Hd Hi Hj. rewrite js_le_key by (by apply Hd).
  intros ?%bool_decide_eq_false. lia.
Qed.

Lemma down_inv_leaf h p :
  1 ≤ p → length h ≤ p * 2 → down_inv h p → ordered h.
Proof.
  intros Hp Hl [H1 _] i Hi. apply H1; [done|]. lia.
Qed.

Lemma down_inv_done h p :
  all_defined h → p * 2 < length h →
  js_le (arr_get h p) (arr_get h (smallest_child h p)) = true →
  down_inv h p → ordered h.
Proof.
  intros Hdef Hl Hle [H1 _] i Hi.
  destruct (decide (i / 2 = p)) as [E|E]; [|by apply H1].
  apply js_le_true_key in Hle.
  pose proof (smallest_child_min h p i Hdef Hl Hi E). rewrite E. lia.
Qed.

Lemma down_inv_step h p :
  1 ≤ p → all_defined h → p * 2 < length h →
  js_le (arr_get h p) (arr_get h (smallest_child h p)) = false →
  down_inv h p →
  down_inv (swap h p (smallest_child h p)) (smallest_child h p).
Proof.
  intros Hp1 Hdef Hl Hle [H1 H2].
  destruct (smallest_child_cases h p Hl) as [Hc Hcl].
  pose proof (smallest_child_min h p) as Hmin.
  remember (smallest_child h p) as c eqn:Ec. clear Ec.
  assert (p < length h) as Hpl by lia.
  apply js_le_false_key in Hle; [|done..].
  assert (c / 2 = p) as Hcp by lia.
  split.
  - intros i Hi Hic. rewrite length_swap in Hi by done.
    rewrite !arr_get_swap by done.
    pose proof (H1 i Hi) as H1i. pose proof (Hmin i Hdef Hl Hi) as Hmi.
    pose proof (H2 c Hcl Hcp) as H2c.
    destruct (decide (i / 2 = p)) as [E|E]; [rewrite E in *|];
      repeat case_decide; subst; try lia.
  - intros d Hd Hdc. rewrite length_swap in Hd by done.
    rewrite !arr_get_swap by done.
    pose proof (H1 d Hd) as H1d. rewrite Hdc in H1d.
    rewrite Hcp. repeat case_decide; subst; try lia.
Qed.

Lemma shiftDown_loop_ordered fuel : ∀ h p h',
  1 ≤ p →
  shiftDown_loop fuel h p (p * 2) = Some h' →
  all_defined h → down_inv h p →
  length h' = length h ∧ all_defined h' ∧ ordered h'.
Proof.
  induction fuel as [|fuel IH]; intros h p h' Hp Hrun Hdef Hinv;
    rewrite shiftDown_loop_eq in Hrun;
    destruct (decide (p * 2 < length h)) as [Hl|Hl]; simplify_eq.
  - split_and!; [done..|]. apply (down_inv_leaf _ p); [done|lia|done].
  - cbv zeta in Hrun. fold (smallest_child h p) in Hrun.
    destruct (smallest_child_cases h p Hl) as [Hc Hcl].
    destruct (js_le _ _) eqn:Hle; simplify_eq.
    + eauto using down_inv_done.
    + apply IH in Hrun as (Hlen & Hd' & Ho).
      * rewrite length_swap in Hlen by lia. done.
      * lia.
      * apply all_defined_swap; [lia|done..].
      * by apply down_inv_step.
  - split_and!; [done..|]. apply (down_inv_leaf _ p); [done|lia|done].
Qed.

(** The loop ends: the node index at least doubles at every turn. *)
Lemma shiftDown_loop_total fuel : ∀ h p,
  1 ≤ p → length h ≤ fuel + p →
  is_Some (shiftDown_loop fuel h p (p * 2)).
Proof.
  induction fuel as [|fuel IH]; intros h p Hp Hf;
    rewrite shiftDown_loop_eq;
    destruct (decide (p * 2 < length h)) as [Hl|Hl]; try (by eexists).
  - lia.
  - cbv zeta. fold (smallest_child h p).
    destruct (smallest_child_cases h p Hl) as [Hc Hcl].
    destruct (js_le _ _); [by eexists|].
    apply IH; [lia|]. rewrite length_swap by lia. lia.
Qed.

Lemma shiftDown_total h : is_Some (shiftDown h).
Proof. unfold shiftDown. apply (shiftDown_loop_total _ h 1); lia. Qed.

Lemma extract_total h : is_Some (extract h).
Proof.
  unfold extract. case_decide; [by eexists|].
  destruct (pop h) as [lastNode h1]. case_decide; [by eexists|].
  destruct (shiftDown_total (arr_set h1 1 lastNode)) as [h3 ->].
  by eexists.
Qed.
End SiftDown.

(** ** What the calls keep true *)

Section HeapInvariant.
Import MinHeap.
Implicit Types (h : list value) (i j : nat) (c : call).

Lemma root_min h i :
  ordered h → i < length h → (key (arr_get h 0) ≤ key (arr_get h i))%Z.
Proof.
  intros Ho. induction i as [i IH] using lt_wf_ind. intros Hi.
  destruct (decide (i = 0)) as [->|Hne]; [lia|].
  pose proof (Ho i Hi). assert (i / 2 < i) as Hlt by lia.
  specialize (IH (i / 2) Hlt). lia.
Qed.

Lemma ordered_heap_order h : all_defined h → ordered h → heap_order h.
Proof.
  intros Hd Ho i Hi1 Hi. unfold js_ge.
  rewrite js_le_key by (apply Hd; lia).
  apply bool_decide_eq_true. by apply Ho.
Qed.

Lemma well_formed_new : well_formed new.
Proof.
  split_and!; [simpl; lia| |]; intros i Hi; simpl in Hi;
    replace i with 0 by lia; done.
Qed.

Lemma insert_well_formed num h h' :
  is_defined num →
  insert num h = Some h' → well_formed h → well_formed h'.
Proof.
  intros Hnum Hrun (Hl & Hd & Ho).
  destruct (insert_ordered _ _ _ Hnum Hrun Hd Ho) as (Hlen & ? & ?).
  split_and!; [lia|done..].
Qed.

Lemma extract_well_formed h v h' :
  extract h = Some (v, h') → well_formed h → well_formed h'.
Proof.
  unfold extract. intros Hrun (Hl & Hd & Ho).
  case_decide as Hone; [by simplify_eq|].
  destruct (pop_nonempty h) as (lastNode & h1 & -> & Hpop); [lia|].
  rewrite Hpop in Hrun. clear Hpop.
  rewrite length_app in Hone, Hl. simpl in Hone, Hl.
  assert (all_defined h1) as Hd1.
  { intros i Hi. specialize (Hd i). rewrite length_app in Hd. simpl in Hd.
    fold (push h1 lastNode) in Hd. rewrite arr_get_push in Hd.
    rewrite decide_False in Hd by lia. apply Hd. lia. }
  assert (∀ i, i < length h1 →
            arr_get (h1 ++ [lastNode]) i = arr_get h1 i) as Hpre.
  { intros i Hi. fold (push h1 lastNode). rewrite arr_get_push.
    by rewrite decide_False by lia. }
  assert (is_defined lastNode) as Hdl.
  { specialize (Hd (length h1)). fold (push h1 lastNode) in Hd.
    rewrite length_push, arr_get_push, decide_True in Hd by done.
    apply Hd. lia. }
  assert (ordered h1) as Ho1.
  { intros i Hi. rewrite <- !Hpre by lia. apply Ho.
    rewrite length_app. simpl. lia. }
  case_decide as Hone'; [simplify_eq; split_and!; [lia|done..]|].
  destruct (shiftDown (arr_set h1 1 lastNode)) as [h3|] eqn:Hsd;
    simpl in Hrun; simplify_eq.
  unfold shiftDown in Hsd. change (idxOfLeftChild 1) with (1 * 2) in Hsd.
  assert (1 < length h1) as Hl1 by lia.
  apply shiftDown_loop_ordered in Hsd as (Hlen & Hd3 & Ho3); [|lia|..].
  - rewrite length_arr_set_lt in Hlen by done. split_and!; [lia|done..].
  - intros i Hi. rewrite length_arr_set_lt in Hi by done.
    rewrite arr_get_set_lt by done. case_decide; [done|by apply Hd1].
  - pose proof (root_min (h1 ++ [lastNode])) as Hmin.
    rewrite length_app in Hmin. simpl in Hmin.
    assert (key (arr_get h1 0) ≤ key lastNode)%Z as Hlast.
    { specialize (Hmin (length h1) Ho). rewrite Hpre in Hmin by lia.
      fold (push h1 lastNode) in Hmin.
      rewrite arr_get_push, decide_True in Hmin by done. apply Hmin. lia. }
    split.
    + intros i Hi Hne. rewrite length_arr_set_lt in Hi by done.
      rewrite !arr_get_set_lt by done.
      pose proof (Ho1 i Hi). repeat case_decide; subst; try lia.
      change (1 / 2) with 0. done.
    + intros d Hdl' Hd2. rewrite length_arr_set_lt in Hdl' by done.
      rewrite !arr_get_set_lt by done. change (1 / 2) with 0.
      rewrite !decide_False by lia.
      specialize (Hmin d Ho). rewrite !Hpre in Hmin by lia.
      apply Hmin. lia.
Qed.

Lemma step_well_formed c h v h' :
  step c h = Some (v, h') → well_formed h → well_formed h'.
Proof.
  destruct c as [|num|]; simpl.
  - unfold top. by intros [= _ <-].
  - destruct (insert (Val num) h) as [h1|] eqn:Hi; simpl; [|done].
    intros [= _ <-] Hwf. by apply (insert_well_formed (Val num) h).
  - apply extract_well_formed.
Qed.

Lemma step_total c h : is_Some (step c h).
Proof.
  destruct c as [|num|]; simpl.
  - by eexists.
  - destruct (insert_total (Val num) h) as [h' ->]. by eexists.
  - apply extract_total.
Qed.

Lemma run_total cs : ∀ h, is_Some (run cs h).
Proof.
  induction cs as [|c cs IH]; intros h; simpl; [by eexists|].
  destruct (step_total c h) as [[v h'] ->]. simpl.
  destruct (IH h') as [[vs h''] ->]. by eexists.
Qed.

Lemma run_cons c cs h vs h'' :
  run (c :: cs) h = Some (vs, h'') →
  ∃ v h' vs', step c h = Some (v, h') ∧ run cs h' = Some (vs', h'') ∧
              vs = v :: vs'.
Proof.
  simpl. destruct (step c h) as [[v h']|]; simpl; [|done].
  destruct (run cs h') as [[vs' h3]|] eqn:Hr; simpl; [|done].
  intros [= <- <-]. by exists v, h', vs'.
Qed.

Lemma run_well_formed cs : ∀ h vs h',
  run cs h = Some (vs, h') → well_formed h → well_formed h'.
Proof.
  induction cs as [|c cs IH]; intros h vs h' Hrun Hwf.
  - simpl in Hrun. by simplify_eq.
  - apply run_cons in Hrun as (v & h1 & vs' & Hs & Hr & ->).
    eauto using step_well_formed.
Qed.
End HeapInvariant.



(** ** The placeholder in slot 0 *)

Section Sentinel.
Import MinHeap.
Implicit Types (h : list value) (i j : nat).

Lemma sentinel_ok_length h : sentinel_ok h → 0 < length h.
Proof.
  intros [H0 _]. apply Nat.lt_nge. intros Hge.
  rewrite arr_get_ge in H0 by lia. done.
Qed.

Lemma sentinel_swap h i j :
  0 < i → i < length h → 0 < j → j < length h →
  sentinel_ok h → sentinel_ok (swap h i j).
Proof.
  intros Hi0 Hi Hj0 Hj [H0 Hn]. split.
  - rewrite arr_get_swap by done. by rewrite !decide_False by lia.
  - intros k Hk0 Hk. rewrite length_swap in Hk by done.
    rewrite arr_get_swap by done. repeat case_decide; by apply Hn.
Qed.

(** With the placeholder in slot 0 and no negative number in the
    array, the test of the sift-up loop fails against slot 0. *)
Lemma sentinel_stops_sift_up h i :
  sentinel_ok h → js_lt (arr_get h i) (arr_get h 0) = false.
Proof.
  intros [H0 Hn]. rewrite H0.
  destruct (decide (i = 0)) as [->|Hne]; [by rewrite H0|].
  destruct (decide (i < length h)) as [Hi|Hi].
  - destruct (Hn i) as (z & -> & Hz); [lia|done|].
    unfold js_lt. simpl. apply bool_decide_eq_false. lia.
  - by rewrite arr_get_ge by lia.
Qed.

Lemma shiftUp_sentinel fuel : ∀ h cur par h',
  par ≤ cur →
  shiftUp fuel h cur par = Some h' →
  sentinel_ok h → sentinel_ok h'.
Proof.
  induction fuel as [|fuel IH]; intros h cur par h' Hle Hrun Hs;
    rewrite shiftUp_eq in Hrun;
    destruct (js_lt (arr_get h cur) (arr_get h par)) eqn:Hlt;
    simplify_eq; [done| |done].
  destruct (js_lt_in_bounds _ _ _ Hlt) as [Hc Hp].
  assert (par ≠ 0) as Hp0.
  { intros ->. by rewrite sentinel_stops_sift_up in Hlt. }
  apply IH in Hrun; [done|lia|]. apply sentinel_swap; [lia|done|lia|done..].
Qed.

Lemma shiftDown_loop_sentinel fuel : ∀ h p h',
  1 ≤ p →
  shiftDown_loop fuel h p (p * 2) = Some h' →
  sentinel_ok h → sentinel_ok h'.
Proof.
  induction fuel as [|fuel IH]; intros h p h' Hp Hrun Hs;
    rewrite shiftDown_loop_eq in Hrun;
    destruct (decide (p * 2 < length h)) as [Hl|Hl]; simplify_eq;
    [done| |done].
  cbv zeta in Hrun. fold (smallest_child h p) in Hrun.
  destruct (smallest_child_cases h p Hl) as [Hc Hcl].
  destruct (js_le _ _); simplify_eq; [done|].
  apply IH in Hrun; [done|lia|]. apply sentinel_swap; [lia..|done].
Qed.

Lemma insert_sentinel num h h' :
  (0 ≤ num)%Z → insert (Val num) h = Some h' →
  sentinel_ok h → sentinel_ok h'.
Proof.
  unfold insert. intros Hnum Hrun Hs.
  pose proof (sentinel_ok_length h Hs) as Hlen.
  apply shiftUp_sentinel in Hrun; [done|unfold idxOfParent; lia|].
  destruct Hs as [H0 Hn]. split.
  - by rewrite arr_get_push, decide_False by lia.
  - intros i Hi0 Hi. rewrite length_push in Hi. rewrite arr_get_push.
    case_decide; [eauto|]. apply Hn; lia.
Qed.

Lemma extract_sentinel h v h' :
  extract h = Some (v, h') → sentinel_ok h → sentinel_ok h'.
Proof.
  unfold extract. intros Hrun Hs.
  pose proof (sentinel_ok_length h Hs) as Hlen.
  case_decide as Hone; [by simplify_eq|].
  destruct (pop_nonempty h) as (lastNode & h1 & -> & Hpop); [lia|].
  rewrite Hpop in Hrun. clear Hpop.
  rewrite length_app in Hone, Hlen. simpl in Hone, Hlen.
  destruct Hs as [H0 Hn]. fold (push h1 lastNode) in H0, Hn.
  assert (sentinel_ok h1) as Hs1.
  { split.
    - by rewrite arr_get_push, decide_False in H0 by lia.
    - intros i Hi0 Hi. specialize (Hn i Hi0).
      rewrite length_push, arr_get_push, decide_False in Hn by lia.
      apply Hn. lia. }
  case_decide as Hone'; [by simplify_eq|].
  destruct (shiftDown (arr_set h1 1 lastNode)) as [h3|] eqn:Hsd;
    simpl in Hrun; simplify_eq.
  unfold shiftDown in Hsd. change (idxOfLeftChild 1) with (1 * 2) in Hsd.
  apply shiftDown_loop_sentinel in Hsd; [done|lia|].
  assert (1 < length h1) as Hl1 by lia.
  destruct Hs1 as [H0' Hn']. split.
  - by rewrite arr_get_set_lt, decide_False by lia.
  - intros i Hi0 Hi. rewrite length_arr_set_lt in Hi by done.
    rewrite arr_get_set_lt by done. case_decide; [|by apply Hn'].
    specialize (Hn (length h1)).
    rewrite length_push, arr_get_push, decide_True in Hn by done.
    apply Hn; lia.
Qed.

Lemma sentinel_ok_new : sentinel_ok new.
Proof. split; [done|]. intros i Hi0 Hi. simpl in Hi. lia. Qed.

Lemma run_sentinel cs : ∀ h vs h',
  (∀ num, CInsert num ∈ cs → (0 ≤ num)%Z) →
  run cs h = Some (vs, h') → sentinel_ok h → sentinel_ok h'.
Proof.
  induction cs as [|c cs IH]; intros h vs h' Hnn Hrun Hs.
  - simpl in Hrun. by simplify_eq.
  - apply run_cons in Hrun as (v & h1 & vs' & Hstep & Hr & ->).
    apply (IH h1 vs' h'); [|done|].
    { intros num Hin. apply Hnn. by right. }
    destruct c as [|num|]; simpl in Hstep.
    + unfold top in Hstep. by simplify_eq.
    + destruct (insert (Val num) h) as [h2|] eqn:Hi; simpl in Hstep; [|done].
      simplify_eq. apply (insert_sentinel num h); [|done..].
      apply Hnn. by left.
    + by apply (extract_sentinel h v).
Qed.
End Sentinel.

(** C9. When no negative number is ever passed to [insert], a fresh heap
    and the heap after any number of [top], [insert] and [extract] calls
    has [null] in slot 0 and a number in every other slot: the calls
    all return, and no stored value ever sits in slot 0. *)
Theorem sentinel_stays_null (cs : list MinHeap.call) :
  (∀ num, MinHeap.CInsert num ∈ cs → (0 ≤ num)%Z) →
  ∀ k, ∃ vs h,
    MinHeap.run (take k cs) MinHeap.new = Some (vs, h) ∧ sentinel_ok h.
Proof.
  intros Hnn k.
  destruct (run_total (take k cs) MinHeap.new) as [[vs h] Hrun].
  exists vs, h. split; [done|].
  apply (run_sentinel (take k cs) MinHeap.new vs h); [|done|].
  - intros num Hin. apply Hnn. by eapply subseteq_take.
  - apply sentinel_ok_new.
Qed.

Lemma sentinel_stays_null_witness :
  ∃ vs h,
    MinHeap.run
      (take 4 [MinHeap.CInsert 5; MinHeap.CInsert 0; MinHeap.CTop;
               MinHeap.CExtract; MinHeap.CExtract])
      MinHeap.new = Some (vs, h) ∧ sentinel_ok h.
Proof.
  apply (sentinel_stays_null
           [MinHeap.CInsert 5; MinHeap.CInsert 0; MinHeap.CTop;
            MinHeap.CExtract; MinHeap.CExtract]).
  intros num Hin.
  repeat (apply elem_of_cons in Hin as [Hin|Hin]; [simplify_eq; lia|]).
  by apply elem_of_nil in Hin.
Defined.

(** C5. On an empty heap (the array holds one slot only) [top] returns
    [undefined] and leaves the array as it is, and any number of
    [extract] calls each return [null] and leave the array, hence the
    size 0, as it is. *)
Theorem empty_heap_signals_absence (h : list value) :
  length h = 1 →
  MinHeap.top h = (Undefined, h) ∧
  is_number Undefined = false ∧ is_number Null = false ∧
  MinHeap.extract h = Some (Null, h) ∧
  (∀ n, MinHeap.extract_n n h = Some (replicate n Null, h)) ∧
  MinHeap.size h = 0.
Proof.
  intros Hlen.
  assert (MinHeap.extract h = Some (Null, h)) as Hex.
  { unfold MinHeap.extract. by rewrite decide_True. }
  split_and!; try done.
  - unfold MinHeap.top. by rewrite arr_get_ge by lia.
  - intros n. unfold MinHeap.extract_n.
    induction n as [|n IH]; [done|]. simpl. rewrite Hex. simpl.
    rewrite IH. done.
  - unfold MinHeap.size. lia.
Qed.

Lemma empty_heap_signals_absence_witness :
  MinHeap.top MinHeap.new = (Undefined, MinHeap.new) ∧
  is_number Undefined = false ∧ is_number Null = false ∧
  MinHeap.extract MinHeap.new = Some (Null, MinHeap.new) ∧
  (∀ n, MinHeap.extract_n n MinHeap.new
        = Some (replicate n Null, MinHeap.new)) ∧
  MinHeap.size MinHeap.new = 0.
Proof. apply (empty_heap_signals_absence MinHeap.new). reflexivity. Defined.

(** ** [shiftDown] against the sift-down of the specification *)

Section SiftDownSpec.
Import MinHeap.
Implicit Types (h : list value) (i c p : nat).

Lemma arr_ext h h' :
  length h = length h' →
  (∀ i, i < length h → arr_get h i = arr_get h' i) → h = h'.
Proof.
  intros Hlen Hget. apply list_eq. intros i.
  destruct (decide (i < length h)) as [Hi|Hi].
  - rewrite (arr_get_lt h i Hi), (arr_get_lt h' i) by lia.
    by rewrite Hget.
  - by rewrite !lookup_ge_None_2 by lia.
Qed.

(** The code's [swap] is the exchange of the specification. *)
Lemma swap_exchanged h i c :
  i < length h → c < length h → exchanged h i c (swap h i c).
Proof.
  intros Hi Hc. split_and!.
  - by apply length_swap.
  - rewrite arr_get_swap by done. by repeat case_decide; subst.
  - rewrite arr_get_swap by done. by rewrite decide_True.
  - intros k Hki Hkc. rewrite arr_get_swap by done.
    by rewrite !decide_False.
Qed.

Lemma exchanged_unique h i c h1 h2 :
  exchanged h i c h1 → exchanged h i c h2 → h2 = h1.
Proof.
  intros (Hl1 & Hi1 & Hc1 & Hk1) (Hl2 & Hi2 & Hc2 & Hk2).
  apply arr_ext; [congruence|]. intros k Hk.
  destruct (decide (k = i)) as [->|Hki]; [congruence|].
  destruct (decide (k = c)) as [->|Hkc]; [congruence|].
  by rewrite Hk1, Hk2.
Qed.

Lemma js_lt_asym a b : js_lt a b = true → js_lt b a = false.
Proof.
  unfold js_lt. destruct (to_number a), (to_number b); try done.
  intros ?%bool_decide_eq_true. apply bool_decide_eq_false. lia.
Qed.

Lemma chosen_child_smallest h p :
  p * 2 < length h → chosen_child h p (smallest_child h p).
Proof.
  intros Hl. split; [done|]. unfold smallest_child.
  destruct (bool_decide (p * 2 + 1 < length h)) eqn:Hb; simpl.
  - apply bool_decide_eq_true in Hb.
    destruct (js_lt _ _) eqn:Hlt; [left|right]; eauto.
  - apply bool_decide_eq_false in Hb. right. split; [done|]. left. lia.
Qed.

Lemma chosen_child_unique h p c :
  chosen_child h p c → c = smallest_child h p.
Proof.
  intros [Hl [(-> & Hr & Hlt)|(-> & [Hr|Hlt])]]; unfold smallest_child.
  - by rewrite bool_decide_eq_true_2, Hlt.
  - by rewrite bool_decide_eq_false_2 by lia.
  - rewrite Hlt. by rewrite andb_false_r.
Qed.

(** No child inside the array is strictly smaller than the chosen
    one. *)
Lemma chosen_child_least h p c d :
  chosen_child h p c → d < length h → d = p * 2 ∨ d = p * 2 + 1 →
  js_lt (arr_get h d) (arr_get h c) = false.
Proof.
  intros [Hl [(-> & Hr & Hlt)|(-> & [Hr|Hlt])]] Hd [-> | ->];
    auto using js_lt_irrefl, js_lt_asym; lia.
Qed.

Lemma shiftDown_loop_sift_down fuel : ∀ h p h',
  shiftDown_loop fuel h p (p * 2) = Some h' → sift_down h p h'.
Proof.
  induction fuel as [|fuel IH]; intros h p h' Hrun;
    rewrite shiftDown_loop_eq in Hrun;
    destruct (decide (p * 2 < length h)) as [Hl|Hl]; simplify_eq.
  - apply sift_no_child. lia.
  - cbv zeta in Hrun. fold (smallest_child h p) in Hrun.
    pose proof (chosen_child_smallest h p Hl) as Hch.
    destruct (js_le _ _) eqn:Hle; simplify_eq.
    + by eapply sift_stop.
    + destruct (smallest_child_cases h p Hl) as [_ Hcl].
      eapply sift_swap; [done|done| |by apply IH].
      apply swap_exchanged; [lia|done].
  - apply sift_no_child. lia.
Qed.

Lemma sift_down_unique h p h1 :
  sift_down h p h1 → ∀ h2, sift_down h p h2 → h2 = h1.
Proof.
  induction 1 as [h i Hl|h i c Hch Hle|h i c g h1 Hch Hle Hex Hs IH];
    intros h2 Hs2.
  - inversion Hs2 as [|? ? c' [Hl' _]|? ? c' ? ? [Hl' _]]; subst;
      [done|lia..].
  - inversion Hs2 as [|? ? c' Hch'|? ? c' ? ? Hch' Hle']; subst; [done..|].
    apply chosen_child_unique in Hch, Hch'. congruence.
  - inversion Hs2
      as [? ? Hl'|? ? c' Hch' Hle'|? ? c' g' ? Hch' Hle' Hex' Hs'];
      subst.
    + destruct Hch as [Hl _]. lia.
    + apply chosen_child_unique in Hch, Hch'. congruence.
    + apply chosen_child_unique in Hch, Hch'. subst.
      rewrite (exchanged_unique _ _ _ _ _ Hex Hex') in Hs'. by apply IH.
Qed.
End SiftDownSpec.

(** C6. [shiftDown] ends on every array, and what it computes is the
    sift-down of the specification started at slot 1: at each step the
    right child counts only when its index is inside the array, the
    node is compared with the right child when that one is strictly
    smaller than the left one and with the left child otherwise, no
    child inside the array is strictly smaller than the chosen one, the
    node and the chosen child exchange their contents (all other slots
    staying as they are) when the node is not [<=] that child, and the
    loop stops exactly when the node has no child or is [<=] the chosen
    child (the specification's sift-down has one result only). *)
Theorem shiftDown_refines_spec (h : list value) :
  ∃ h', MinHeap.shiftDown h = Some h' ∧
        sift_down h 1 h' ∧
        (∀ h'', sift_down h 1 h'' → h'' = h') ∧
        (∀ g i c d, chosen_child g i c → d < length g →
                    d = i * 2 ∨ d = i * 2 + 1 →
                    js_lt (arr_get g d) (arr_get g c) = false).
Proof.
  destruct (shiftDown_total h) as [h' Hrun]. exists h'.
  assert (sift_down h 1 h') as Hs.
  { unfold MinHeap.shiftDown in Hrun.
    by apply shiftDown_loop_sift_down in Hrun. }
  split_and!; [done|done|by apply sift_down_unique|].
  apply chosen_child_least.
Qed.

(** ** The earlier draft of [insert] *)

Section Draft.
Import MinHeapDraft.
Implicit Types (h : list value).

Lemma draft_shiftUp_eq fuel h c p :
  shiftUp fuel h c p =
    if js_lt (arr_getZ h c) (arr_getZ h p) then
      match fuel with
      | 0 => None
      | S fuel' =>
          shiftUp fuel' (swap h (Z.to_nat c) (Z.to_nat p)) p ((p - 1) / 2)%Z
      end
    else Some h.
Proof. by destruct fuel. Qed.

Lemma arr_getZ_defined h (i : Z) :
  is_defined (arr_getZ h i) → (0 ≤ i)%Z ∧ Z.to_nat i < length h.
Proof.
  unfold arr_getZ. case_decide; [done|]. intros Hd. split; [lia|].
  apply Nat.lt_nge. intros Hge. by rewrite arr_get_ge in Hd by lia.
Qed.

(** When the test of the loop succeeds, both indices are inside the
    array. *)
Lemma draft_test_in_bounds h (c p : Z) :
  js_lt (arr_getZ h c) (arr_getZ h p) = true →
  ((0 ≤ c)%Z ∧ Z.to_nat c < length h) ∧
  ((0 ≤ p)%Z ∧ Z.to_nat p < length h).
Proof.
  intros [Hc Hp]%js_lt_true_defined. split; by apply arr_getZ_defined.
Qed.

Lemma draft_shiftUp_total fuel : ∀ h (c p : Z),
  (p < Z.of_nat fuel)%Z → is_Some (shiftUp fuel h c p).
Proof.
  induction fuel as [|fuel IH]; intros h c p Hp;
    rewrite draft_shiftUp_eq;
    destruct (js_lt _ _) eqn:Hlt; try (by eexists).
  - apply draft_test_in_bounds in Hlt. lia.
  - apply draft_test_in_bounds in Hlt. apply IH. lia.
Qed.

Lemma draft_insert_total num h : is_Some (insert num h).
Proof.
  unfold insert. apply draft_shiftUp_total. rewrite length_push. lia.
Qed.
End Draft.

(** ** Negative numbers and the placeholder

    [insert] has no test on the index: it relies on [num < null] being
    false, which holds for [num >= 0] only. A negative number is swapped
    with the placeholder, ends in slot 0 and is out of reach of [top] and
    [extract] from then on. *)

(** C4. Evaluation at the failing input: on a fresh heap [insert(-1)]
    moves the value past index 1, into slot 0, and the placeholder into
    slot 1. *)
Example insert_moves_negative_past_root :
  MinHeap.insert (Val (-1)%Z) MinHeap.new = Some [Val (-1)%Z; Null].
Proof. vm_compute. reflexivity. Qed.

(** C1. Evaluation at the failing input: after inserting [-1] and [-2]
    into a fresh heap, two [extract] calls return [-1] and [null], not
    [-2] and [-1], and [-2] stays behind in slot 0. *)
Example negative_values_break_round_trip :
  (MinHeap.insert_all [-1; -2]%Z MinHeap.new ≫= MinHeap.extract_n 2)
  = Some ([Val (-1)%Z; Null], [Val (-2)%Z]).
Proof. vm_compute. reflexivity. Qed.

(** C3. Evaluation at the failing input: after [insert(-1)] the heap
    has size 1, and [extract] returns [null] instead of the stored
    [-1]. *)
Example extract_misses_negative_minimum :
  MinHeap.run [MinHeap.CInsert (-1); MinHeap.CExtract] MinHeap.new
  = Some ([Undefined; Null], [Val (-1)%Z]).
Proof. vm_compute. reflexivity. Qed.

(** C7. Evaluation at the failing input: after [insert(-3)] and
    [insert(4)] the heap has size 2, and [top] returns [null], which is
    neither of the two stored numbers. *)
Example top_misses_negative_minimum :
  MinHeap.run [MinHeap.CInsert (-3); MinHeap.CInsert 4; MinHeap.CTop]
              MinHeap.new
  = Some ([Undefined; Undefined; Null], [Val (-3)%Z; Null; Val 4%Z]).
Proof. vm_compute. reflexivity. Qed.

(** C10. Evaluation at the failing input: inserting 3, 4, 5, 1 into a
    fresh heap, the draft leaves 1 in slot 2 under the larger 3 (after
    the first swap it takes [floor((2 - 1) / 2) = 0] for the parent of
    slot 2), while the complete class moves 1 to slot 1; the two arrays
    differ. *)
Example draft_insert_differs :
  MinHeapDraft.insert_all [3; 4; 5; 1]%Z MinHeapDraft.new
    = Some [Null; Val 3%Z; Val 1%Z; Val 5%Z; Val 4%Z] ∧
  MinHeap.insert_all [3; 4; 5; 1]%Z MinHeap.new
    = Some [Null; Val 1%Z; Val 3%Z; Val 5%Z; Val 4%Z] ∧
  MinHeapDraft.insert_all [3; 4; 5; 1]%Z MinHeapDraft.new
    ≠ MinHeap.insert_all [3; 4; 5; 1]%Z MinHeap.new.
Proof. vm_compute. split_and!; [reflexivity..|discriminate]. Qed.

(** ** The two queues *)

Section ArrayQueue.
Context {A : Type}.
Implicit Types (q : list (jsval A)) (cs : list (qcall A)).

Lemma queue_isEmpty_nil q : Queue.isEmpty q = true ↔ q = [].
Proof.
  unfold Queue.isEmpty. rewrite bool_decide_eq_true.
  apply length_zero_iff_nil.
Qed.

Lemma queue_dequeue_empty q :
  Queue.isEmpty q = true → Queue.dequeue q = (Undefined, q).
Proof. by intros ->%queue_isEmpty_nil. Qed.

Lemma run_queue_fifo cs : ∀ q out q',
  run_queue cs q = (out, q') → out ++ q' = q ++ enqueued cs.
Proof.
  induction cs as [|[item|] cs IH]; intros q out q' Hrun; simpl in Hrun.
  - simplify_eq. simpl. by rewrite app_nil_r.
  - apply IH in Hrun. simpl in Hrun. unfold push in Hrun.
    by rewrite <- app_assoc in Hrun.
  - destruct q as [|x q]; simpl in Hrun;
      destruct (run_queue cs _) as [vs q''] eqn:Hr; simplify_eq;
      apply IH in Hr; simpl in *; by rewrite ?Hr.
Qed.
End ArrayQueue.

Section LinkedQueue.
Context {A : Type}.
Import LinkedListQueue.
Implicit Types (m : gmap positive (QueueNode A)) (q : queue A)
               (ls : list positive) (vs : list (jsval A)).

Lemma chain_lookup m start ls vs l :
  chain m start ls vs → l ∈ ls → is_Some (m !! l).
Proof.
  revert start vs. induction ls as [|l' ls IH]; intros start vs Hch Hin.
  - by apply elem_of_nil in Hin.
  - destruct vs as [|v vs]; [done|]. destruct Hch as (-> & nx & Hl & Hch).
    apply elem_of_cons in Hin as [->|Hin]; [by eexists|by eapply IH].
Qed.

Lemma chain_length m start ls vs : chain m start ls vs → length ls = length vs.
Proof.
  revert start vs. induction ls as [|l ls IH]; intros start [|v vs] Hch;
    try done.
  destruct Hch as (-> & nx & Hl & Hch). simpl. f_equal. by eapply IH.
Qed.

Lemma chain_nil_iff m start ls vs :
  chain m start ls vs → (start = None ↔ vs = []).
Proof.
  destruct ls as [|l ls], vs as [|v vs]; simpl; try done.
  intros (-> & _). done.
Qed.

(** Linking a fresh node behind the last node of a chain. *)
Lemma chain_snoc m ls : ∀ start vs t newTail v,
  chain m start ls vs → last ls = Some t → NoDup ls →
  m !! newTail = None →
  chain (alter (λ n, mkNode (data n) (Some newTail)) t
               (<[newTail := mkNode v None]> m))
        start (ls ++ [newTail]) (vs ++ [v]).
Proof.
  induction ls as [|l ls IH]; intros start vs t newTail v Hch Hlast Hnd Hfr;
    [done|].
  destruct vs as [|v0 vs]; [done|].
  destruct Hch as (-> & nx & Hl & Hch).
  assert (l ≠ newTail) as Hne.
  { intros E. rewrite E, Hfr in Hl. done. }
  apply NoDup_cons in Hnd as [Hnotin Hnd].
  destruct ls as [|l2 ls].
  - simpl in Hlast. simplify_eq. destruct vs as [|? ?]; [|done].
    simpl in Hch. subst nx. simpl. split; [done|].
    exists (Some newTail). split.
    + rewrite lookup_alter_eq, lookup_insert_ne by done. by rewrite Hl.
    + split; [done|]. exists None. split; [|done].
      rewrite lookup_alter_ne by done. by rewrite lookup_insert_eq.
  - assert (last (l2 :: ls) = Some t) as Hlast' by done.
    assert (t ∈ l2 :: ls) as Hin.
    { apply last_Some in Hlast' as [l' ->]. set_solver. }
    assert (l ≠ t) as Hlt by (intros ->; done).
    change ((l :: l2 :: ls) ++ [newTail])
      with (l :: ((l2 :: ls) ++ [newTail])).
    change ((v0 :: vs) ++ [v]) with (v0 :: (vs ++ [v])).
    split; [done|]. exists nx. split.
    + rewrite lookup_alter_ne, lookup_insert_ne by done. done.
    + by apply IH.
Qed.

Lemma isEmpty_represents q vs :
  represents q vs → (isEmpty q = true ↔ vs = []).
Proof.
  intros (ls & Hch & _). rewrite <- (chain_nil_iff _ _ _ _ Hch).
  unfold isEmpty. by destruct (head q).
Qed.

Lemma represents_new : represents (new (A := A)) [].
Proof. exists []. split_and!; try done. constructor. Qed.

Lemma enqueue_represents v q vs :
  represents q vs →
  ∃ q', enqueue v q = Some (Z.of_nat (length vs) + 1, q')%Z ∧
        represents q' (vs ++ [v]).
Proof.
  intros (ls & Hch & Hnd & Htail & Hsize). unfold enqueue.
  pose proof (is_fresh (dom (nodes q))) as Hfresh.
  apply not_elem_of_dom in Hfresh.
  remember (fresh (dom (nodes q))) as newTail eqn:En. clear En.
  destruct ls as [|l ls].
  - destruct vs as [|? ?]; [|done]. simpl in Hch.
    unfold isEmpty. rewrite Hch, Hsize. eexists. split; [done|].
    exists [newTail]. simpl.
    split; [|split; [|split]];
      [|apply NoDup_singleton|done|simpl; lia].
    split; [done|]. exists None. by rewrite lookup_insert_eq.
  - destruct vs as [|v0 vs]; [done|].
    pose proof Hch as (Hhead & _).
    unfold isEmpty. rewrite Hhead.
    destruct (last (l :: ls)) as [t|] eqn:Hlast.
    2: { by apply last_None in Hlast. }
    rewrite Htail. simpl. rewrite Hsize. eexists. split; [done|].
    exists ((l :: ls) ++ [newTail]).
    split_and!.
    + rewrite Hhead in Hch.
      by apply (chain_snoc (nodes q) (l :: ls) (Some l) (v0 :: vs)).
    + apply NoDup_app. split_and!; [done| |apply NoDup_singleton].
      intros x Hx ->%list_elem_of_singleton.
      destruct (chain_lookup _ _ _ _ _ Hch Hx) as [n Hn].
      rewrite Hfresh in Hn. done.
    + cbn [LinkedListQueue.tail]. by rewrite last_snoc.
    + cbn [LinkedListQueue.size length]. rewrite length_app. simpl. lia.
Qed.

Lemma dequeue_represents_empty q :
  isEmpty q = true → dequeue q = Some (Null, q).
Proof. unfold isEmpty, dequeue. by destruct (head q). Qed.

Lemma dequeue_represents v q vs :
  represents q (v :: vs) →
  ∃ q', dequeue q = Some (v, q') ∧ represents q' vs.
Proof.
  intros (ls & Hch & Hnd & Htail & Hsize). unfold dequeue.
  destruct ls as [|l ls]; [done|].
  destruct Hch as (Hhead & nx & Hl & Hch). rewrite Hhead, Hl. simpl.
  eexists. split; [done|].
  apply NoDup_cons in Hnd as [_ Hnd].
  exists ls. simpl. split_and!; [done|done| |].
  - destruct ls as [|l2 ls].
    + destruct vs; [|done]. simpl in Hch. by subst nx.
    + destruct vs; [done|]. destruct Hch as (-> & _).
      rewrite Htail. done.
  - simpl in Hsize. lia.
Qed.

Lemma run_linked_fifo cs : ∀ q vs,
  represents q vs →
  ∃ out q' rest, run_linked cs q = Some (out, q') ∧
                 represents q' rest ∧
                 out ++ rest = vs ++ enqueued cs.
Proof.
  induction cs as [|[item|] cs IH]; intros q vs Hrep; simpl.
  - exists [], q, vs. by rewrite app_nil_r.
  - destruct (enqueue_represents item q vs Hrep) as (q1 & -> & Hrep1).
    simpl. destruct (IH q1 _ Hrep1) as (out & q' & rest & -> & Hr & Heq).
    exists out, q', rest. by rewrite Heq, <- app_assoc.
  - destruct vs as [|v vs].
    + pose proof (proj2 (isEmpty_represents q [] Hrep) eq_refl) as He.
      rewrite (dequeue_represents_empty q He). simpl. rewrite He.
      destruct (IH q [] Hrep) as (out & q' & rest & -> & Hr & Heq).
      simpl. by exists out, q', rest.
    + destruct (dequeue_represents v q vs Hrep) as (q1 & -> & Hrep1).
      simpl.
      destruct (IH q1 vs Hrep1) as (out & q' & rest & -> & Hr & Heq).
      simpl.
      destruct (isEmpty q) eqn:He.
      { by apply (isEmpty_represents q _ Hrep) in He. }
      exists (v :: out), q', rest. simpl. by rewrite Heq.
Qed.
End LinkedQueue.

(** C8. For every sequence of [enqueue] and [dequeue] calls on a fresh
    queue, the items returned by the [dequeue] calls that found the
    queue non-empty, followed by the items still in the queue, are the
    enqueued items in the order of their [enqueue] calls; this holds for
    the array queue and for the linked queue (whose calls never fail),
    and in either one a [dequeue] on an empty queue returns [undefined]
    (array) or [null] (linked) and leaves the state as it is. *)
Theorem queues_are_fifo {A : Type} (cs : list (qcall A)) :
  (∃ out q,
     run_queue cs Queue.new = (out, q) ∧
     out ++ q = enqueued cs) ∧
  (∃ out q rest,
     run_linked cs LinkedListQueue.new = Some (out, q) ∧
     represents q rest ∧
     (LinkedListQueue.isEmpty q = true ↔ rest = []) ∧
     out ++ rest = enqueued cs) ∧
  (∀ q : Queue.queue A,
     Queue.isEmpty q = true → Queue.dequeue q = (Undefined, q)) ∧
  (∀ q : LinkedListQueue.queue A,
     LinkedListQueue.isEmpty q = true →
     LinkedListQueue.dequeue q = Some (Null, q)).
Proof.
  split_and!.
  - destruct (run_queue cs Queue.new) as [out q] eqn:Hrun.
    exists out, q. split; [done|].
    by apply run_queue_fifo in Hrun.
  - destruct (run_linked_fifo cs LinkedListQueue.new [] represents_new)
      as (out & q & rest & Hrun & Hrep & Heq).
    exists out, q, rest. split_and!; try done.
    by apply isEmpty_represents.
  - apply queue_dequeue_empty.
  - apply dequeue_represents_empty.
Qed.

(** ** Without negative numbers the heap is the bag of the specification *)

Section Bag.
Import MinHeap.
Implicit Types (h : list value) (s : list Z) (i j : nat).

Lemma swap_perm h i j : i < length h → j < length h → swap h i j ≡ₚ h.
Proof.
  intros Hi Hj. unfold swap.
  rewrite (arr_set_lt h) by done.
  rewrite arr_set_lt by (by rewrite length_insert).
  apply Permutation_insert_swap; by apply arr_get_lt.
Qed.

Lemma shiftUp_perm fuel : ∀ h cur par h',
  shiftUp fuel h cur par = Some h' → h' ≡ₚ h.
Proof.
  induction fuel as [|fuel IH]; intros h cur par h' Hrun;
    rewrite shiftUp_eq in Hrun;
    destruct (js_lt (arr_get h cur) (arr_get h par)) eqn:Hlt;
    simplify_eq; [done| |done].
  destruct (js_lt_in_bounds _ _ _ Hlt) as [Hc Hp].
  apply IH in Hrun. by rewrite Hrun, swap_perm.
Qed.

Lemma shiftDown_loop_perm fuel : ∀ h p h',
  shiftDown_loop fuel h p (p * 2) = Some h' → h' ≡ₚ h.
Proof.
  induction fuel as [|fuel IH]; intros h p h' Hrun;
    rewrite shiftDown_loop_eq in Hrun;
    destruct (decide (p * 2 < length h)) as [Hl|Hl]; simplify_eq;
    [done| |done].
  cbv zeta in Hrun. fold (smallest_child h p) in Hrun.
  destruct (smallest_child_cases h p Hl) as [Hc Hcl].
  destruct (js_le _ _); simplify_eq; [done|].
  apply IH in Hrun. rewrite Hrun. apply swap_perm; [lia|done].
Qed.

Lemma insert_perm num h h' : insert num h = Some h' → h' ≡ₚ h ++ [num].
Proof. unfold insert. by intros Hrun%shiftUp_perm. Qed.

(** [extract] on a heap that is not empty returns slot 1 and takes one
    copy of it out of the array. *)
Lemma extract_perm h v h' :
  extract h = Some (v, h') → 1 < length h →
  v = arr_get h 1 ∧ h ≡ₚ v :: h' ∧ length h' = length h - 1.
Proof.
  unfold extract. intros Hrun Hlen. rewrite decide_False in Hrun by lia.
  destruct (pop_nonempty h) as (lastNode & h1 & -> & Hpop); [lia|].
  rewrite Hpop in Hrun. clear Hpop.
  rewrite length_app in Hlen |- *. simpl in Hlen |- *.
  destruct h1 as [|x0 [|x1 h1]]; [simpl in Hlen; lia| |].
  - simpl in Hrun. simplify_eq. split_and!; [done| |done].
    apply Permutation_swap.
  - rewrite decide_False in Hrun by (simpl; lia).
    destruct (shiftDown _) as [h3|] eqn:Hsd; simpl in Hrun; simplify_eq.
    unfold shiftDown in Hsd. change (idxOfLeftChild 1) with (1 * 2) in Hsd.
    pose proof (shiftDown_loop_perm _ _ _ _ Hsd) as Hperm.
    split_and!; [done| |].
    + rewrite Hperm. unfold arr_set, arr_get. simpl.
      rewrite (Permutation_swap x1 x0). do 2 f_equiv.
      by rewrite Permutation_app_comm.
    + apply Permutation_length in Hperm. rewrite Hperm.
      unfold arr_set. simpl. lia.
Qed.

Lemma slot_1_min h i :
  ordered h → 1 ≤ i → i < length h →
  (key (arr_get h 1) ≤ key (arr_get h i))%Z.
Proof.
  intros Ho. induction i as [i IH] using lt_wf_ind. intros Hi1 Hi.
  destruct (decide (i = 1)) as [->|Hne]; [lia|].
  pose proof (Ho i Hi). assert (i / 2 < i) as Hlt by lia.
  specialize (IH (i / 2) Hlt). lia.
Qed.

Lemma spec_minimum_spec s m :
  spec_minimum s = Some m → m ∈ s ∧ ∀ x, x ∈ s → (m ≤ x)%Z.
Proof.
  destruct s as [|x s]; [done|]. simpl. intros [= <-].
  induction s as [|y s [IHin IHle]]; simpl.
  - split; [by left|]. intros z ->%list_elem_of_singleton. lia.
  - split.
    + destruct (Z.min_spec y (foldr Z.min x s)) as [[_ ->]|[_ ->]].
      * right. by left.
      * apply elem_of_cons in IHin as [->|?]; [by left|].
        right. by right.
    + intros z Hz. apply elem_of_cons in Hz as [Hzx|Hz].
      * specialize (IHle x (list_elem_of_here _ _)). lia.
      * apply elem_of_cons in Hz as [Hzy|Hz]; [lia|].
        specialize (IHle z (list_elem_of_further _ _ _ Hz)). lia.
Qed.

Lemma spec_remove_perm m s : m ∈ s → s ≡ₚ m :: spec_remove m s.
Proof.
  induction s as [|x s IH]; intros Hin; [by apply elem_of_nil in Hin|].
  simpl. case_decide as Hx; [by subst|].
  apply elem_of_cons in Hin as [->|Hin]; [done|].
  rewrite (IH Hin) at 1. apply Permutation_swap.
Qed.

(** What the array and the bag have in common: the slots after the
    placeholder are the numbers of the bag. *)
Lemma sentinel_ok_cons h : sentinel_ok h → ∃ t, h = Null :: t.
Proof.
  intros [H0 _]. destruct h as [|x t]; [done|]. exists t.
  unfold arr_get in H0. simpl in H0. by subst.
Qed.

Lemma stored_slot h s z :
  ordered h → tail h ≡ₚ Val <$> s → 1 < length h →
  arr_get h 1 = Val z → spec_minimum s = Some z.
Proof.
  intros Ho Hperm Hlen H1. destruct h as [|x0 t]; [simpl in Hlen; lia|].
  simpl in Hperm, Hlen.
  assert (Val z ∈ t) as Hz.
  { destruct t as [|x1 t']; [simpl in Hlen; lia|].
    unfold arr_get in H1. simpl in H1. subst. by left. }
  rewrite Hperm in Hz. apply list_elem_of_fmap in Hz as (z' & [= <-] & Hzs).
  destruct (spec_minimum s) as [m|] eqn:Hmin.
  2: { destruct s; [by apply elem_of_nil in Hzs|done]. }
  apply spec_minimum_spec in Hmin as [Hm Hle]. f_equal.
  assert (Val m ∈ t) as Hmt.
  { rewrite Hperm. apply list_elem_of_fmap. eauto. }
  apply list_elem_of_lookup in Hmt as [i Hi].
  pose proof (lookup_lt_Some _ _ _ Hi) as Hil.
  pose proof (slot_1_min (x0 :: t) (S i) Ho) as Hmin.
  rewrite H1 in Hmin. unfold arr_get in Hmin. simpl in Hmin.
  rewrite Hi in Hmin. simpl in Hmin. unfold key in Hmin. simpl in Hmin.
  specialize (Hle z Hzs). lia.
Qed.

Lemma step_refines_spec c h s :
  (∀ num, c = CInsert num → (0 ≤ num)%Z) →
  sentinel_ok h → well_formed h → tail h ≡ₚ Val <$> s →
  ∃ h', step c h = Some ((spec_step c s).1, h') ∧
        sentinel_ok h' ∧ well_formed h' ∧
        tail h' ≡ₚ Val <$> (spec_step c s).2.
Proof.
  intros Hnn Hs Hwf Hperm.
  destruct (step_total c h) as [[v h'] Hstep]. exists h'.
  pose proof (step_well_formed _ _ _ _ Hstep Hwf) as Hwf'.
  destruct (sentinel_ok_cons h Hs) as [t ->]. simpl in Hperm.
  destruct Hwf as (_ & _ & Ho).
  assert (s = [] → t = []) as Hnil.
  { intros ->. by apply Permutation_nil_r in Hperm. }
  assert (∀ x s', s = x :: s' → ∃ z, arr_get (Null :: t) 1 = Val z ∧
            1 < length (Null :: t)) as Hcons.
  { intros x s' ->. apply Permutation_length in Hperm. simpl in Hperm.
    destruct Hs as [_ Hn]. destruct (Hn 1) as (z & Hz & _); [lia|simpl; lia|].
    exists z. split; [done|simpl; lia]. }
  destruct c as [|num|]; simpl in Hstep |- *.
  - unfold top in Hstep. simplify_eq. split_and!; [|done..].
    destruct s as [|x s'].
    + rewrite (Hnil eq_refl). done.
    + destruct (Hcons x s' eq_refl) as (z & Hz & Hl).
      unfold top. by rewrite (stored_slot _ _ z Ho Hperm Hl Hz), Hz.
  - destruct (insert (Val num) (Null :: t)) as [h1|] eqn:Hi;
      simpl in Hstep; [|done].
    simplify_eq. split_and!; [done| |done|].
    + eapply insert_sentinel; [|done..]. by apply Hnn.
    + assert (sentinel_ok h') as Hs'.
      { eapply insert_sentinel; [|done..]. by apply Hnn. }
      destruct (sentinel_ok_cons h' Hs') as [t' ->].
      apply insert_perm in Hi. simpl in Hi. apply (inj (Null ::.)) in Hi.
      simpl. rewrite Hi, Hperm. by rewrite Permutation_app_comm.
  - pose proof (extract_sentinel _ _ _ Hstep Hs) as Hs'.
    destruct s as [|x s'].
    + rewrite (Hnil eq_refl) in Hstep |- *. simpl in Hstep.
      unfold extract in Hstep. simpl in Hstep. by simplify_eq.
    + destruct (Hcons x s' eq_refl) as (z & Hz & Hl).
      pose proof (stored_slot _ _ z Ho Hperm Hl Hz) as Hmin.
      rewrite Hmin. simpl.
      destruct (extract_perm _ _ _ Hstep Hl) as (-> & Hp & _).
      rewrite Hz in *. rewrite Hstep. split_and!; [done..|].
      destruct (sentinel_ok_cons h' Hs') as [t' ->]. simpl.
      rewrite (Permutation_swap Null (Val z)) in Hp.
      apply (inj (Null ::.)) in Hp. rewrite Hperm in Hp.
      apply spec_minimum_spec in Hmin as [Hin _].
      change (t' ≡ₚ Val <$> spec_remove z (x :: s')).
      pose proof (spec_remove_perm z (x :: s') Hin) as Hq.
      apply (fmap_Permutation Val) in Hq. rewrite Hp in Hq.
      rewrite fmap_cons in Hq. by apply (inj (Val z ::.)) in Hq.
Qed.

Lemma run_refines_spec cs : ∀ h s,
  (∀ num, CInsert num ∈ cs → (0 ≤ num)%Z) →
  sentinel_ok h → well_formed h → tail h ≡ₚ Val <$> s →
  ∃ h', run cs h = Some ((spec_run cs s).1, h') ∧
        sentinel_ok h' ∧ tail h' ≡ₚ Val <$> (spec_run cs s).2.
Proof.
  induction cs as [|c cs IH]; intros h s Hnn Hs Hwf Hperm.
  - exists h. done.
  - destruct (step_refines_spec c h s) as (h1 & Hstep & Hs1 & Hwf1 & Hp1);
      [|done..|].
    { intros num ->. apply Hnn. by left. }
    simpl. rewrite Hstep. simpl.
    destruct (spec_step c s) as [v s1]. simpl in *.
    destruct (IH h1 s1) as (h' & Hrun & Hs' & Hp'); [|done..|].
    { intros num Hin. apply Hnn. by right. }
    rewrite Hrun. simpl.
    destruct (spec_run cs s1) as [vs s2]. simpl in *. by exists h'.
Qed.
End Bag.

(** X10. When the numbers passed to [insert] are integers and none of
    them is negative, the calls on a fresh heap return what the same
    calls return on the bag of the specification ([top] and [extract]
    give the minimum stored), and the slots after the placeholder hold
    the numbers of the bag. *)
Theorem nonnegative_heap_is_bag (cs : list MinHeap.call) :
  (∀ num, MinHeap.CInsert num ∈ cs → (0 ≤ num)%Z) →
  ∃ h, MinHeap.run cs MinHeap.new = Some ((spec_run cs []).1, h) ∧
       tail h ≡ₚ Val <$> (spec_run cs []).2.
Proof.
  intros Hnn.
  destruct (run_refines_spec cs MinHeap.new [] Hnn)
    as (h & Hrun & _ & Hperm);
    [apply sentinel_ok_new|apply well_formed_new|done|].
  by exists h.
Qed.

(** ** Insert everything, then extract everything *)

Section RoundTrip.
Import MinHeap.
Implicit Types (h : list value) (s nums out : list Z).

Lemma run_app cs1 : ∀ cs2 h,
  run (cs1 ++ cs2) h =
    '(vs1, h1) ← run cs1 h; '(vs2, h2) ← run cs2 h1; Some (vs1 ++ vs2, h2).
Proof.
  induction cs1 as [|c cs1 IH]; intros cs2 h; simpl.
  - destruct (run cs2 h) as [[vs2 h2]|]; done.
  - destruct (step c h) as [[v h1]|]; simpl; [|done]. rewrite IH.
    destruct (run cs1 h1) as [[vs1 h2]|]; simpl; [|done].
    destruct (run cs2 h2) as [[vs2 h3]|]; done.
Qed.

Lemma run_length cs : ∀ h vs h',
  run cs h = Some (vs, h') → length vs = length cs.
Proof.
  induction cs as [|c cs IH]; intros h vs h' Hrun.
  - simpl in Hrun. by simplify_eq.
  - apply run_cons in Hrun as (v & h1 & vs' & _ & Hr & ->).
    simpl. f_equal. by eapply IH.
Qed.

Lemma insert_all_None nums :
  foldl (λ acc num, acc ≫= insert (Val num)) None nums = None.
Proof. induction nums as [|num nums IH]; [done|]. simpl. apply IH. Qed.

Lemma insert_all_run nums : ∀ h,
  insert_all nums h = snd <$> run (CInsert <$> nums) h.
Proof.
  unfold insert_all. induction nums as [|num nums IH]; intros h; [done|].
  simpl. destruct (insert (Val num) h) as [h1|]; simpl.
  - rewrite IH. by destruct (run _ h1) as [[vs h2]|].
  - apply insert_all_None.
Qed.

Lemma spec_run_app cs1 : ∀ cs2 s,
  spec_run (cs1 ++ cs2) s =
    ((spec_run cs1 s).1 ++ (spec_run cs2 (spec_run cs1 s).2).1,
     (spec_run cs2 (spec_run cs1 s).2).2).
Proof.
  induction cs1 as [|c cs1 IH]; intros cs2 s; simpl.
  - by destruct (spec_run cs2 s).
  - destruct (spec_step c s) as [v s1]. rewrite IH.
    destruct (spec_run cs1 s1) as [vs1 s2]. simpl.
    by destruct (spec_run cs2 s2).
Qed.

Lemma spec_run_inserts nums : ∀ s,
  (spec_run (CInsert <$> nums) s).2 = reverse nums ++ s.
Proof.
  induction nums as [|num nums IH]; intros s; [done|]. simpl.
  specialize (IH (num :: s)). destruct (spec_run _ (num :: s)) as [vs s1].
  simpl in *. rewrite IH, reverse_cons. by rewrite <- app_assoc.
Qed.

Lemma spec_run_inserts_out nums : ∀ s,
  (spec_run (CInsert <$> nums) s).1 = replicate (length nums) Undefined.
Proof.
  induction nums as [|num nums IH]; intros s; [done|]. simpl.
  specialize (IH (num :: s)). destruct (spec_run _ (num :: s)) as [vs s1].
  simpl in *. by rewrite IH.
Qed.

(** Taking the minimum out of the bag again and again sorts it. *)
Lemma spec_extract_all n : ∀ s,
  length s = n →
  ∃ out, spec_run (replicate n CExtract) s = (Val <$> out, []) ∧
         StronglySorted Z.le out ∧ out ≡ₚ s.
Proof.
  induction n as [|n IH]; intros s Hlen.
  - destruct s; [|done]. exists []. split_and!; [done|constructor|done].
  - destruct (spec_minimum s) as [m|] eqn:Hmin; [|by destruct s].
    pose proof (spec_minimum_spec s m Hmin) as [Hin Hle].
    pose proof (spec_remove_perm m s Hin) as Hperm.
    destruct (IH (spec_remove m s)) as (out & Hrun & Hsorted & Hout).
    { apply Permutation_length in Hperm. simpl in Hperm. lia. }
    exists (m :: out). simpl. rewrite Hmin, Hrun. split_and!; [done| |].
    + constructor; [done|]. apply Forall_forall. intros x Hx.
      apply Hle. rewrite Hperm. right. by rewrite <- Hout.
    + by rewrite Hperm, Hout.
Qed.
End RoundTrip.

(** X11. When the numbers are integers and none of them is negative,
    inserting them all into a fresh heap and extracting as many times
    returns them in non-decreasing order and leaves the heap as it was
    when created. *)
Theorem nonnegative_round_trip (nums : list Z) :
  Forall (λ num, 0 ≤ num)%Z nums →
  ∃ out,
    (MinHeap.insert_all nums MinHeap.new
       ≫= MinHeap.extract_n (length nums))
    = Some (Val <$> out, MinHeap.new) ∧
    Sorted Z.le out ∧ out ≡ₚ nums.
Proof.
  intros Hnn. set (cs1 := MinHeap.CInsert <$> nums).
  set (cs2 := replicate (length nums) MinHeap.CExtract).
  destruct (run_refines_spec (cs1 ++ cs2) MinHeap.new [])
    as (h & Hrun & Hs & Hperm);
    [|apply sentinel_ok_new|apply well_formed_new|done|].
  { intros num [Hin|Hin]%elem_of_app.
    - apply list_elem_of_fmap in Hin as (z & [= <-] & Hz).
      by apply (proj1 (Forall_forall _ _) Hnn).
    - by apply elem_of_replicate in Hin as [? _]. }
  rewrite spec_run_app in Hrun, Hperm. simpl in Hrun, Hperm.
  unfold cs1 in Hrun at 2 3, Hperm.
  rewrite spec_run_inserts, app_nil_r in Hrun, Hperm.
  destruct (spec_extract_all (length nums) (reverse nums))
    as (out & Hspec & Hsorted & Hout); [by rewrite length_reverse|].
  fold cs2 in Hspec. rewrite Hspec in Hrun, Hperm. simpl in Hrun, Hperm.
  apply Permutation_nil_r in Hperm.
  destruct (sentinel_ok_cons h Hs) as [t ->]. simpl in Hperm. subst t.
  rewrite run_app in Hrun. rewrite insert_all_run.
  fold cs1. unfold MinHeap.extract_n. fold cs2.
  destruct (MinHeap.run cs1 MinHeap.new) as [[vs1 h1]|] eqn:Hr1;
    simpl in Hrun |- *; [|done].
  destruct (MinHeap.run cs2 h1) as [[vs2 h2]|] eqn:Hr2;
    simpl in Hrun |- *; [|done].
  exists out. split_and!.
  - apply run_length in Hr1. unfold cs1 in Hr1, Hrun.
    rewrite length_fmap in Hr1.
    rewrite spec_run_inserts_out in Hrun.
    injection Hrun as Hvs ->.
    apply app_inj_1 in Hvs as [_ ->]; [done|].
    by rewrite length_replicate.
  - by apply StronglySorted_Sorted.
  - by rewrite Hout, reverse_Permutation.
Qed.

(** ** The tree dump *)

Section TreeDump.
Implicit Types (h : list value) (p i k : nat) (ls : list line).

Lemma printHorizontalTree_eq fuel h p sc si :
  printHorizontalTree fuel h p sc si =
    if decide (Z.of_nat (length h) - 1 < Z.of_nat p)%Z then Some []
    else
      match fuel with
      | 0 => None
      | S fuel' =>
          above ← printHorizontalTree fuel' h (p * 2 + 1) (sc + si) 10;
          below ← printHorizontalTree fuel' h (p * 2) (sc + si) 10;
          Some (above ++
                [mkLine (if decide (sc + si < si)%Z then 0%Z
                         else (sc + si - si)%Z) (arr_get h p) p] ++ below)
      end.
Proof.
  destruct fuel; simpl; [done|]. case_decide; [done|].
  destruct (printHorizontalTree fuel h (p * 2 + 1) _ _); simpl; [|done].
  by destruct (printHorizontalTree fuel h (p * 2) _ _).
Qed.

Lemma half_pow i k : i / 2 ^ S k = i / 2 ^ k / 2.
Proof. by rewrite Nat.pow_succ_r', Nat.Div0.div_div, Nat.mul_comm. Qed.

Lemma in_subtree_le p i : in_subtree p i → p ≤ i.
Proof.
  intros [k <-]. apply Nat.Div0.div_le_upper_bound.
  pose proof (Nat.pow_nonzero 2 k). nia.
Qed.

Lemma in_subtree_children p i :
  in_subtree p i ↔
  i = p ∨ in_subtree (p * 2) i ∨ in_subtree (p * 2 + 1) i.
Proof.
  split.
  - intros [[|k] Hk].
    + left. rewrite Nat.pow_0_r, Nat.div_1_r in Hk. done.
    + right. rewrite half_pow in Hk.
      assert (i / 2 ^ k = p * 2 ∨ i / 2 ^ k = p * 2 + 1) as [H|H] by lia;
        [left|right]; by exists k.
  - intros [->|[[k Hk]|[k Hk]]].
    + exists 0. by rewrite Nat.pow_0_r, Nat.div_1_r.
    + exists (S k). rewrite half_pow, Hk. lia.
    + exists (S k). rewrite half_pow, Hk. lia.
Qed.

Lemma in_subtree_depth k : ∀ i p,
  1 ≤ p → i / 2 ^ k = p → Nat.log2 i = Nat.log2 p + k.
Proof.
  induction k as [|k IH]; intros i p Hp Hk.
  - rewrite Nat.pow_0_r, Nat.div_1_r in Hk. subst. lia.
  - rewrite half_pow in Hk.
    assert (i / 2 ^ k = 2 * p ∨ i / 2 ^ k = 2 * p + 1) as [H|H] by lia.
    + rewrite (IH i (2 * p)) by (done || lia).
      rewrite Nat.log2_double by lia. lia.
    + rewrite (IH i (2 * p + 1)) by (done || lia).
      rewrite Nat.log2_succ_double by lia. lia.
Qed.

Lemma in_subtree_disjoint p i :
  1 ≤ p → in_subtree (p * 2) i → in_subtree (p * 2 + 1) i → False.
Proof.
  intros Hp [a Ha] [b Hb].
  replace (p * 2) with (2 * p) in Ha, Hb by lia.
  pose proof (in_subtree_depth a i (2 * p) ltac:(lia) Ha) as Hda.
  pose proof (in_subtree_depth b i (2 * p + 1) ltac:(lia) Hb) as Hdb.
  rewrite Nat.log2_double in Hda by lia.
  rewrite Nat.log2_succ_double in Hdb by lia.
  assert (a = b) as -> by lia. lia.
Qed.

Lemma in_subtree_root i : in_subtree 1 i ↔ 1 ≤ i.
Proof.
  split; [apply in_subtree_le|]. intros Hi. exists (Nat.log2 i).
  destruct (Nat.log2_spec i) as [Hlo Hhi]; [lia|].
  rewrite Nat.pow_succ_r' in Hhi. symmetry.
  apply (Nat.div_unique i _ 1 (i - 2 ^ Nat.log2 i)); lia.
Qed.

(** The recursion leaves slot 0 out and ends for every start index
    from 1 on. *)
Lemma printHorizontalTree_total fuel : ∀ h p sc si,
  1 ≤ p → length h ≤ fuel + p →
  is_Some (printHorizontalTree fuel h p sc si).
Proof.
  induction fuel as [|fuel IH]; intros h p sc si Hp Hf;
    rewrite printHorizontalTree_eq; case_decide; try (by eexists); [lia|].
  destruct (IH h (p * 2 + 1) (sc + si)%Z 10%Z) as [above ->]; [lia..|].
  destruct (IH h (p * 2) (sc + si)%Z 10%Z) as [below ->]; [lia..|].
  by eexists.
Qed.

Lemma printHorizontalTree_lines fuel : ∀ h p sc si ls,
  1 ≤ p →
  printHorizontalTree fuel h p sc si = Some ls →
  NoDup (line_index <$> ls) ∧
  (∀ i, i ∈ line_index <$> ls ↔ i < length h ∧ in_subtree p i) ∧
  (∀ l, l ∈ ls → line_value l = arr_get h (line_index l)).
Proof.
  induction fuel as [|fuel IH]; intros h p sc si ls Hp Hrun;
    rewrite printHorizontalTree_eq in Hrun;
    case_decide as Hout; simplify_eq.
  - split_and!; [constructor| |by intros l ?%elem_of_nil].
    intros i. split; [by intros ?%elem_of_nil|].
    intros [Hi Hsub%in_subtree_le]. lia.
  - split_and!; [constructor| |by intros l ?%elem_of_nil].
    intros i. split; [by intros ?%elem_of_nil|].
    intros [Hi Hsub%in_subtree_le]. lia.
  - destruct (printHorizontalTree fuel h (p * 2 + 1) _ _) as [above|] eqn:Ha;
      simpl in Hrun; [|done].
    destruct (printHorizontalTree fuel h (p * 2) _ _) as [below|] eqn:Hb;
      simpl in Hrun; [|done].
    simplify_eq.
    apply IH in Ha as (Hnda & Hina & Hva); [|lia].
    apply IH in Hb as (Hndb & Hinb & Hvb); [|lia].
    rewrite !fmap_app. simpl. split_and!.
    + apply NoDup_app. split_and!; [done| |].
      * intros i [_ Hi1]%Hina Hi.
        apply elem_of_cons in Hi as [->|[_ Hi2]%Hinb].
        -- apply in_subtree_le in Hi1. lia.
        -- by eapply (in_subtree_disjoint p i).
      * apply NoDup_cons. split; [|done].
        intros [_ Hi%in_subtree_le]%Hinb. lia.
    + intros i. rewrite elem_of_app, elem_of_cons, Hina, Hinb.
      rewrite (in_subtree_children p i). split.
      * intros [[? ?]|[->|[? ?]]]; split; auto. lia.
      * intros [Hi [->|[?|?]]]; auto.
    + intros l [Hl|Hl]%elem_of_app; [by apply Hva|].
      apply elem_of_cons in Hl as [->|Hl]; [done|by apply Hvb].
Qed.

Lemma printHorizontalTree_indent fuel : ∀ h p sc ls l,
  1 ≤ p → (0 ≤ sc)%Z →
  printHorizontalTree fuel h p sc 10 = Some ls → l ∈ ls →
  (line_indent l + 10 * Z.of_nat (Nat.log2 p)
   = sc + 10 * Z.of_nat (Nat.log2 (line_index l)))%Z.
Proof.
  induction fuel as [|fuel IH]; intros h p sc ls l Hp Hsc Hrun Hl;
    rewrite printHorizontalTree_eq in Hrun;
    case_decide as Hout; simplify_eq;
    try (by apply elem_of_nil in Hl).
  destruct (printHorizontalTree fuel h (p * 2 + 1) _ _) as [above|] eqn:Ha;
    simpl in Hrun; [|done].
  destruct (printHorizontalTree fuel h (p * 2) _ _) as [below|] eqn:Hb;
    simpl in Hrun; [|done].
  simplify_eq.
  apply elem_of_app in Hl as [Hl|Hl]; [|apply elem_of_cons in Hl as [->|Hl]].
  - pose proof (IH h (p * 2 + 1) (sc + 10)%Z above l
                  ltac:(lia) ltac:(lia) Ha Hl) as Hi.
    replace (p * 2 + 1) with (2 * p + 1) in Hi by lia.
    rewrite Nat.log2_succ_double in Hi by lia. lia.
  - simpl. rewrite decide_False by lia. lia.
  - pose proof (IH h (p * 2) (sc + 10)%Z below l
                  ltac:(lia) ltac:(lia) Hb Hl) as Hi.
    replace (p * 2) with (2 * p) in Hi by lia.
    rewrite Nat.log2_double in Hi by lia. lia.
Qed.

End TreeDump.

(** X1. The dump with default arguments ends on every array and logs
    one line for each slot after the placeholder, no slot twice: the
    line of slot [i] shows the content of slot [i] behind
    [10 * floor(log2 i)] spaces. A fresh heap gives no line. *)
Theorem printTree_lists_every_slot_once (h : list value) :
  ∃ ls, printTree h = Some ls ∧
        line_index <$> ls ≡ₚ seq 1 (length h - 1) ∧
        ∀ l, l ∈ ls →
          line_value l = arr_get h (line_index l) ∧
          line_indent l = (10 * Z.of_nat (Nat.log2 (line_index l)))%Z.
Proof.
  destruct (printHorizontalTree_total (length h) h 1 0 10) as [ls Hrun];
    [lia..|].
  exists ls. split; [done|].
  destruct (printHorizontalTree_lines _ _ _ _ _ _ (le_n 1) Hrun)
    as (Hnd & Hin & Hval).
  split.
  - apply NoDup_Permutation; [done|apply NoDup_seq|].
    intros i. rewrite Hin, elem_of_seq, in_subtree_root. lia.
  - intros l Hl. split; [by apply Hval|].
    pose proof (printHorizontalTree_indent _ _ _ _ _ l (le_n 1)
                  (Z.le_refl 0) Hrun Hl) as Hi.
    change (Nat.log2 1) with 0 in Hi. lia.
Qed.



(** ** More on the calls of MinHeap *)

Section HeapCalls.
Import MinHeap.
Implicit Types (h : list value) (i j : nat).

Lemma swap_swap h i j :
  i < length h → j < length h → swap (swap h i j) i j = h.
Proof.
  intros Hi Hj. pose proof (length_swap h i j Hi Hj) as Hl.
  apply arr_ext.
  - rewrite length_swap by lia. done.
  - intros k Hk. rewrite (arr_get_swap (swap h i j)) by lia.
    rewrite !arr_get_swap by done.
    repeat case_decide; by subst.
Qed.

Lemma swap_comm h i j :
  i < length h → j < length h → swap h i j = swap h j i.
Proof.
  intros Hi Hj. apply arr_ext.
  - by rewrite !length_swap.
  - intros k Hk. rewrite !arr_get_swap by done.
    repeat case_decide; by subst.
Qed.

(** The sift-up loop changes slot 0 only by putting the sifted number
    there, and only when that number is smaller than what slot 0 held. *)
Lemma shiftUp_slot_0 fuel : ∀ h cur par h' num,
  par ≤ cur → arr_get h cur = Val num →
  shiftUp fuel h cur par = Some h' →
  arr_get h' 0 = arr_get h 0 ∨
  (arr_get h' 0 = Val num ∧ js_lt (Val num) (arr_get h 0) = true).
Proof.
  induction fuel as [|fuel IH]; intros h cur par h' num Hle Hcur Hrun;
    rewrite shiftUp_eq in Hrun;
    destruct (js_lt (arr_get h cur) (arr_get h par)) eqn:Hlt;
    simplify_eq; [by left| |by left].
  destruct (js_lt_in_bounds _ _ _ Hlt) as [Hc Hp].
  assert (cur ≠ par) as Hne.
  { intros ->. by rewrite js_lt_irrefl in Hlt. }
  destruct (decide (par = 0)) as [->|Hp0].
  - right. change (0 / 2) with 0 in Hrun.
    rewrite shiftUp_eq, js_lt_irrefl in Hrun. simplify_eq.
    rewrite arr_get_swap, decide_True by done. by rewrite <- Hcur.
  - apply (IH _ _ _ _ num) in Hrun; [|lia|].
    + rewrite arr_get_swap in Hrun by done.
      by rewrite !decide_False in Hrun by lia.
    + by rewrite arr_get_swap, decide_True by done.
Qed.

Lemma shiftDown_loop_slot_0 fuel : ∀ h p h',
  1 ≤ p → shiftDown_loop fuel h p (p * 2) = Some h' →
  arr_get h' 0 = arr_get h 0.
Proof.
  induction fuel as [|fuel IH]; intros h p h' Hp Hrun;
    rewrite shiftDown_loop_eq in Hrun;
    destruct (decide (p * 2 < length h)) as [Hl|Hl]; simplify_eq;
    [done| |done].
  cbv zeta in Hrun. fold (smallest_child h p) in Hrun.
  destruct (smallest_child_cases h p Hl) as [Hc Hcl].
  destruct (js_le _ _); simplify_eq; [done|].
  apply IH in Hrun; [|lia]. rewrite Hrun.
  rewrite arr_get_swap by lia. by rewrite !decide_False by lia.
Qed.

Lemma extract_slot_0 h v h' :
  1 ≤ length h → extract h = Some (v, h') → arr_get h' 0 = arr_get h 0.
Proof.
  unfold extract. intros Hlen Hrun.
  case_decide as Hone; [by simplify_eq|].
  destruct (pop_nonempty h) as (lastNode & h1 & -> & Hpop); [lia|].
  rewrite Hpop in Hrun. clear Hpop.
  rewrite length_app in Hone, Hlen. simpl in Hone, Hlen.
  fold (push h1 lastNode). rewrite arr_get_push, decide_False by lia.
  case_decide as Hone'; [by simplify_eq|].
  destruct (shiftDown _) as [h3|] eqn:Hsd; simpl in Hrun; simplify_eq.
  unfold shiftDown in Hsd. change (idxOfLeftChild 1) with (1 * 2) in Hsd.
  apply shiftDown_loop_slot_0 in Hsd; [|lia]. rewrite Hsd.
  rewrite arr_get_set_lt by lia. by rewrite decide_False by lia.
Qed.

Lemma insert_slot_0 num h h' :
  1 ≤ length h → insert (Val num) h = Some h' →
  arr_get h' 0 = arr_get h 0 ∨
  (arr_get h' 0 = Val num ∧ js_lt (Val num) (arr_get h 0) = true).
Proof.
  unfold insert. rewrite length_push. intros Hlen Hrun.
  replace (S (length h) - 1) with (length h) in Hrun by lia.
  apply (shiftUp_slot_0 _ _ _ _ _ num) in Hrun;
    [|unfold idxOfParent; lia|by rewrite arr_get_push, decide_True].
  rewrite !arr_get_push in Hrun. by rewrite decide_False in Hrun by lia.
Qed.

Lemma extract_length h v h' :
  1 ≤ length h → extract h = Some (v, h') → size h' = size h - 1.
Proof.
  intros Hlen Hrun. unfold size.
  destruct (decide (length h = 1)) as [Hone|Hone].
  - unfold extract in Hrun. rewrite decide_True in Hrun by done.
    simplify_eq. lia.
  - apply extract_perm in Hrun as (_ & _ & ->); lia.
Qed.

Lemma insert_all_length nums : ∀ h,
  ∃ h', insert_all nums h = Some h' ∧ length h' = length h + length nums.
Proof.
  unfold insert_all. induction nums as [|num nums IH]; intros h; simpl.
  - exists h. split; [done|lia].
  - destruct (insert_total (Val num) h) as [h1 Hi]. rewrite Hi. simpl.
    destruct (IH h1) as (h' & -> & Hlen). exists h'. split; [done|].
    apply insert_perm, Permutation_length in Hi.
    rewrite length_app in Hi. simpl in Hi. lia.
Qed.

Lemma extract_n_size n : ∀ h,
  1 ≤ length h →
  ∃ vs h', extract_n n h = Some (vs, h') ∧ length vs = n ∧
           size h' = size h - n.
Proof.
  unfold extract_n. induction n as [|n IH]; intros h Hlen; simpl.
  - exists [], h. split_and!; [done..|lia].
  - destruct (extract_total h) as [[v h1] Hex]. rewrite Hex. simpl.
    pose proof (extract_length _ _ _ Hlen Hex) as Hs.
    assert (1 ≤ length h1) as Hl1.
    { destruct (decide (length h = 1)) as [Hone|Hone].
      - unfold extract in Hex. rewrite decide_True in Hex by done.
        by simplify_eq.
      - apply extract_perm in Hex as (_ & Hp & _); [|lia].
        apply Permutation_length in Hp. simpl in Hp. lia. }
    destruct (IH h1 Hl1) as (vs & h' & -> & Hvs & Hs').
    exists (v :: vs), h'. simpl. split_and!; [done|lia|lia].
Qed.
End HeapCalls.

(** X3. [insert(num)] returns on every array and for every integer,
    and the array it leaves is the old array with [num] added and the
    slots rearranged: one slot longer, no value lost or doubled. *)
Theorem insert_adds_one_value (num : Z) (h : list value) :
  ∃ h', MinHeap.insert (Val num) h = Some h' ∧
        h' ≡ₚ h ++ [Val num] ∧
        length h' = S (length h).
Proof.
  destruct (insert_total (Val num) h) as [h' Hrun]. exists h'.
  pose proof (insert_perm _ _ _ Hrun) as Hperm.
  split_and!; [done..|].
  apply Permutation_length in Hperm. rewrite length_app in Hperm.
  simpl in Hperm. lia.
Qed.

(** X4. On an array with at least one slot after the placeholder,
    [extract()] returns the content of slot 1 and leaves the old array
    without one copy of it, rearranged: one slot shorter, nothing else
    lost. *)
Theorem extract_takes_slot_1 (h : list value) :
  1 < length h →
  ∃ h', MinHeap.extract h = Some (arr_get h 1, h') ∧
        h ≡ₚ arr_get h 1 :: h' ∧
        length h' = length h - 1.
Proof.
  intros Hlen. destruct (extract_total h) as [[v h'] Hrun].
  destruct (extract_perm _ _ _ Hrun Hlen) as (-> & Hperm & Hl).
  by exists h'.
Qed.

Lemma extract_takes_slot_1_witness :
  ∃ h', MinHeap.extract [Null; Val 1%Z; Val 4%Z; Val 2%Z]
          = Some (arr_get [Null; Val 1%Z; Val 4%Z; Val 2%Z] 1, h') ∧
        [Null; Val 1%Z; Val 4%Z; Val 2%Z]
          ≡ₚ arr_get [Null; Val 1%Z; Val 4%Z; Val 2%Z] 1 :: h' ∧
        length h' = length [Null; Val 1%Z; Val 4%Z; Val 2%Z] - 1.
Proof.
  apply (extract_takes_slot_1 [Null; Val 1%Z; Val 4%Z; Val 2%Z]).
  simpl. lia.
Defined.

(** X5. After any sequence of calls on a fresh heap, with any integers,
    what [top()] returns is [<=] (as JavaScript compares) every slot
    after the placeholder. *)
Theorem top_is_least_slot (cs : list MinHeap.call) :
  ∃ vs h, MinHeap.run cs MinHeap.new = Some (vs, h) ∧
          ∀ i, 1 ≤ i → i < length h →
            js_le (MinHeap.top h).1 (arr_get h i) = true.
Proof.
  destruct (run_total cs MinHeap.new) as [[vs h] Hrun].
  exists vs, h. split; [done|]. intros i Hi1 Hi.
  destruct (run_well_formed _ _ _ _ Hrun well_formed_new) as (_ & Hd & Ho).
  simpl. rewrite js_le_key by (apply Hd; lia).
  apply bool_decide_eq_true. by apply slot_1_min.
Qed.

(** X6. After any sequence of calls with integer arguments on a fresh
    heap, slot 0 is [<=] every slot, and one more such call changes
    slot 0 in one case only: [insert(num)] with [num] smaller than what
    slot 0 holds puts [num] there. [top] and [extract] never touch
    slot 0, so a number that got there is never returned. *)
Theorem slot_0_only_sinks (cs : list MinHeap.call) (c : MinHeap.call) :
  ∃ vs h v h',
    MinHeap.run cs MinHeap.new = Some (vs, h) ∧
    MinHeap.step c h = Some (v, h') ∧
    (∀ i, i < length h → js_le (arr_get h 0) (arr_get h i) = true) ∧
    match c with
    | MinHeap.CInsert num =>
        arr_get h' 0 = arr_get h 0 ∨
        (arr_get h' 0 = Val num ∧ js_lt (Val num) (arr_get h 0) = true)
    | _ => arr_get h' 0 = arr_get h 0
    end.
Proof.
  destruct (run_total cs MinHeap.new) as [[vs h] Hrun].
  destruct (step_total c h) as [[v h'] Hstep].
  exists vs, h, v, h'. split_and!; [done..| |].
  - destruct (run_well_formed _ _ _ _ Hrun well_formed_new) as (_ & Hd & Ho).
    intros i Hi. rewrite js_le_key by (apply Hd; lia).
    apply bool_decide_eq_true. by apply root_min.
  - destruct (run_well_formed _ _ _ _ Hrun well_formed_new) as (Hl & _ & _).
    destruct c as [|num|]; simpl in Hstep.
    + unfold MinHeap.top in Hstep. by simplify_eq.
    + destruct (MinHeap.insert (Val num) h) as [h1|] eqn:Hi; simpl in Hstep;
        [|done].
      simplify_eq. by apply insert_slot_0.
    + by apply (extract_slot_0 h v h').
Qed.

(** X7. [shiftDown()] puts a misplaced root right: on an array without
    [undefined] and without [NaN] whose slots are in order with their
    parents everywhere except below slot 1 (whose children are at least
    slot 0), it ends, rearranges the slots and leaves every slot [>=]
    its parent. *)
Theorem shiftDown_restores_order (h : list value) :
  all_defined h → down_inv h 1 →
  ∃ h', MinHeap.shiftDown h = Some h' ∧ h' ≡ₚ h ∧
        ordered h' ∧ heap_order h'.
Proof.
  intros Hd Hinv. destruct (shiftDown_total h) as [h' Hrun]. exists h'.
  split; [done|].
  unfold MinHeap.shiftDown in Hrun.
  change (MinHeap.idxOfLeftChild 1) with (1 * 2) in Hrun.
  pose proof (shiftDown_loop_perm _ _ _ _ Hrun) as Hperm.
  apply shiftDown_loop_ordered in Hrun as (_ & Hd' & Ho'); [|lia|done..].
  split_and!; [done..|by apply ordered_heap_order].
Qed.

Lemma shiftDown_restores_order_witness :
  ∃ h', MinHeap.shiftDown [Null; Val 9%Z; Val 1%Z; Val 2%Z; Val 5%Z]
          = Some h' ∧
        h' ≡ₚ [Null; Val 9%Z; Val 1%Z; Val 2%Z; Val 5%Z] ∧
        ordered h' ∧ heap_order h'.
Proof.
  apply (shiftDown_restores_order
           [Null; Val 9%Z; Val 1%Z; Val 2%Z; Val 5%Z]).
  - intros i Hi. simpl in Hi.
    do 5 (destruct i as [|i]; [done|]). lia.
  - split.
    + intros i Hi Hne. simpl in Hi.
      assert (i = 0 ∨ i = 1 ∨ i = 4) as [->|[->| ->]] by lia;
        vm_compute; done.
    + intros d Hd Hd2. simpl in Hd.
      assert (d = 2 ∨ d = 3) as [->| ->] by lia; vm_compute; done.
Defined.

(** X8. [swap(i, j)] on two indices inside the array exchanges the two
    slots and nothing else: the result is a rearrangement of the array,
    the order of the two indices does not matter, and swapping again
    gives the array back. *)
Theorem swap_exchanges_two_slots (h : list value) (i j : nat) :
  i < length h → j < length h →
  arr_get (swap h i j) i = arr_get h j ∧
  arr_get (swap h i j) j = arr_get h i ∧
  (∀ k, k ≠ i → k ≠ j → arr_get (swap h i j) k = arr_get h k) ∧
  swap h i j ≡ₚ h ∧
  swap h j i = swap h i j ∧
  swap (swap h i j) i j = h.
Proof.
  intros Hi Hj. split_and!.
  - rewrite arr_get_swap by done. by repeat case_decide; subst.
  - rewrite arr_get_swap by done. by rewrite decide_True.
  - intros k Hki Hkj. rewrite arr_get_swap by done.
    by rewrite !decide_False.
  - by apply swap_perm.
  - by apply swap_comm.
  - by apply swap_swap.
Qed.

Lemma swap_exchanges_two_slots_witness :
  arr_get (swap [Null; Val 7%Z; Val 3%Z] 1 2) 1
    = arr_get [Null; Val 7%Z; Val 3%Z] 2 ∧
  arr_get (swap [Null; Val 7%Z; Val 3%Z] 1 2) 2
    = arr_get [Null; Val 7%Z; Val 3%Z] 1 ∧
  (∀ k, k ≠ 1 → k ≠ 2 →
     arr_get (swap [Null; Val 7%Z; Val 3%Z] 1 2) k
       = arr_get [Null; Val 7%Z; Val 3%Z] k) ∧
  swap [Null; Val 7%Z; Val 3%Z] 1 2 ≡ₚ [Null; Val 7%Z; Val 3%Z] ∧
  swap [Null; Val 7%Z; Val 3%Z] 2 1 = swap [Null; Val 7%Z; Val 3%Z] 1 2 ∧
  swap (swap [Null; Val 7%Z; Val 3%Z] 1 2) 1 2 = [Null; Val 7%Z; Val 3%Z].
Proof.
  apply (swap_exchanges_two_slots [Null; Val 7%Z; Val 3%Z] 1 2);
    simpl; lia.
Defined.

(** X9. Inserting [k] integers into a fresh heap gives size [k], and
    [n] calls of [extract] after that return [n] results and leave size
    [k - n], or 0 when [n] is more than [k]: every call returns, for
    any integers. *)
Theorem size_after_inserts_and_extracts (nums : list Z) (n : nat) :
  ∃ h vs h',
    MinHeap.insert_all nums MinHeap.new = Some h ∧
    MinHeap.size h = length nums ∧
    MinHeap.extract_n n h = Some (vs, h') ∧
    length vs = n ∧
    MinHeap.size h' = length nums - n.
Proof.
  destruct (insert_all_length nums MinHeap.new) as (h & Hins & Hlen).
  simpl in Hlen.
  destruct (extract_n_size n h) as (vs & h' & Hex & Hvs & Hsize); [lia|].
  exists h, vs, h'. unfold MinHeap.size in *.
  split_and!; [done|lia|done|done|lia].
Qed.

Lemma nonnegative_heap_is_bag_witness :
  ∃ h,
    MinHeap.run [MinHeap.CInsert 3; MinHeap.CInsert 1; MinHeap.CTop;
                 MinHeap.CExtract; MinHeap.CTop] MinHeap.new
    = Some ((spec_run [MinHeap.CInsert 3; MinHeap.CInsert 1; MinHeap.CTop;
                       MinHeap.CExtract; MinHeap.CTop] []).1, h) ∧
    tail h ≡ₚ
      Val <$> (spec_run [MinHeap.CInsert 3; MinHeap.CInsert 1; MinHeap.CTop;
                         MinHeap.CExtract; MinHeap.CTop] []).2.
Proof.
  apply (nonnegative_heap_is_bag
           [MinHeap.CInsert 3; MinHeap.CInsert 1; MinHeap.CTop;
            MinHeap.CExtract; MinHeap.CTop]).
  intros num Hin.
  repeat (apply elem_of_cons in Hin as [Hin|Hin]; [simplify_eq; lia|]).
  by apply elem_of_nil in Hin.
Defined.

Lemma nonnegative_round_trip_witness :
  ∃ out,
    (MinHeap.insert_all [4; 0; 4; 2]%Z MinHeap.new
       ≫= MinHeap.extract_n (length [4; 0; 4; 2]%Z))
    = Some (Val <$> out, MinHeap.new) ∧
    Sorted Z.le out ∧ out ≡ₚ [4; 0; 4; 2]%Z.
Proof.
  apply (nonnegative_round_trip [4; 0; 4; 2]%Z).
  repeat (constructor; [lia|]). constructor.
Defined.

(** ** More on the draft of [insert] *)

Section DraftMore.
Import MinHeapDraft.
Implicit Types (h : list value).

Lemma draft_shiftUp_perm fuel : ∀ h (c p : Z) h',
  shiftUp fuel h c p = Some h' → h' ≡ₚ h.
Proof.
  induction fuel as [|fuel IH]; intros h c p h' Hrun;
    rewrite draft_shiftUp_eq in Hrun;
    destruct (js_lt _ _) eqn:Hlt; simplify_eq; [done| |done].
  destruct (draft_test_in_bounds _ _ _ Hlt) as [[_ Hc] [_ Hp]].
  apply IH in Hrun. by rewrite Hrun, swap_perm.
Qed.

Lemma draft_insert_perm num h h' :
  insert num h = Some h' → h' ≡ₚ h ++ [Val num].
Proof. unfold insert. by intros Hrun%draft_shiftUp_perm. Qed.

Lemma arr_getZ_nat h (i : nat) : arr_getZ h (Z.of_nat i) = arr_get h i.
Proof.
  unfold arr_getZ. rewrite decide_False by lia. by rewrite Nat2Z.id.
Qed.

Lemma draft_shiftUp_sentinel fuel : ∀ h (c p : Z) h',
  (1 ≤ c)%Z →
  shiftUp fuel h c p = Some h' → sentinel_ok h → sentinel_ok h'.
Proof.
  induction fuel as [|fuel IH]; intros h c p h' Hc1 Hrun Hs;
    rewrite draft_shiftUp_eq in Hrun;
    destruct (js_lt _ _) eqn:Hlt; simplify_eq; [done| |done].
  destruct (draft_test_in_bounds _ _ _ Hlt) as [[Hc0 Hc] [Hp0 Hp]].
  assert (p ≠ 0)%Z as Hpne.
  { intros ->. rewrite <- (Z2Nat.id c), !arr_getZ_nat in Hlt by lia.
    change (arr_getZ h 0) with (arr_getZ h (Z.of_nat 0)) in Hlt.
    rewrite arr_getZ_nat in Hlt.
    by rewrite sentinel_stops_sift_up in Hlt. }
  apply IH in Hrun; [done|lia|]. apply sentinel_swap; [lia|done|lia|done..].
Qed.

Lemma draft_insert_sentinel num h h' :
  (0 ≤ num)%Z → insert num h = Some h' →
  sentinel_ok h → sentinel_ok h'.
Proof.
  unfold insert. intros Hnum Hrun Hs.
  pose proof (sentinel_ok_length h Hs) as Hlen.
  apply draft_shiftUp_sentinel in Hrun; [done|rewrite length_push; lia|].
  destruct Hs as [H0 Hn]. split.
  - by rewrite arr_get_push, decide_False by lia.
  - intros i Hi0 Hi. rewrite length_push in Hi. rewrite arr_get_push.
    case_decide; [eauto|]. apply Hn; lia.
Qed.

Lemma draft_insert_all_spec nums : ∀ h,
  ∃ h', insert_all nums h = Some h' ∧ h' ≡ₚ h ++ (Val <$> nums) ∧
        (Forall (λ num, 0 ≤ num)%Z nums → sentinel_ok h → sentinel_ok h').
Proof.
  unfold insert_all. induction nums as [|num nums IH]; intros h; simpl.
  - exists h. by rewrite app_nil_r.
  - destruct (draft_insert_total num h) as [h1 Hi]. rewrite Hi. simpl.
    destruct (IH h1) as (h' & -> & Hperm & Hsent). exists h'.
    split_and!; [done| |].
    + rewrite Hperm, (draft_insert_perm _ _ _ Hi).
      by rewrite <- app_assoc.
    + intros [Hnum Hnums]%Forall_cons Hs. apply Hsent; [done|].
      by apply (draft_insert_sentinel num h).
Qed.

Lemma insert_all_perm nums : ∀ h,
  ∃ h', MinHeap.insert_all nums h = Some h' ∧ h' ≡ₚ h ++ (Val <$> nums).
Proof.
  unfold MinHeap.insert_all.
  induction nums as [|num nums IH]; intros h; simpl.
  - exists h. by rewrite app_nil_r.
  - destruct (insert_total (Val num) h) as [h1 Hi]. rewrite Hi. simpl.
    destruct (IH h1) as (h' & -> & Hperm). exists h'. split; [done|].
    rewrite Hperm, (insert_perm _ _ _ Hi). by rewrite <- app_assoc.
Qed.
End DraftMore.

(** X12. The draft's [insert(num)] returns on every array and for every
    integer, and leaves the old array with [num] added and the slots
    rearranged, as the complete class does. *)
Theorem draft_insert_adds_one_value (num : Z) (h : list value) :
  ∃ h', MinHeapDraft.insert num h = Some h' ∧
        h' ≡ₚ h ++ [Val num] ∧
        length h' = S (length h).
Proof.
  destruct (draft_insert_total num h) as [h' Hrun]. exists h'.
  pose proof (draft_insert_perm _ _ _ Hrun) as Hperm.
  split_and!; [done..|].
  apply Permutation_length in Hperm. rewrite length_app in Hperm.
  simpl in Hperm. lia.
Qed.

(** X13. Whatever integers are inserted into a fresh heap, the draft
    and the complete class end with the same values in their arrays
    (the placeholder and the inserted numbers), possibly in different
    slots. *)
Theorem draft_holds_the_same_values (nums : list Z) :
  ∃ hd hc,
    MinHeapDraft.insert_all nums MinHeapDraft.new = Some hd ∧
    MinHeap.insert_all nums MinHeap.new = Some hc ∧
    hd ≡ₚ hc ∧ hc ≡ₚ Null :: (Val <$> nums).
Proof.
  destruct (draft_insert_all_spec nums MinHeapDraft.new)
    as (hd & Hd & Hpd & _).
  destruct (insert_all_perm nums MinHeap.new) as (hc & Hc & Hpc).
  exists hd, hc. split_and!; [done..| |done].
  by rewrite Hpd, Hpc.
Qed.



(** ** More on the two queues *)

Section QueueMore.
Context {A : Type}.
Implicit Types (vs rest out : list (jsval A)) (cs : list (qcall A)).

Lemma arr_get_app_r (l k : list (jsval A)) :
  arr_get (l ++ k) (length l) = arr_get k 0.
Proof.
  unfold arr_get. rewrite lookup_app_r by lia. by rewrite Nat.sub_diag.
Qed.

Lemma front_represents (q : LinkedListQueue.queue A) rest :
  represents q rest →
  LinkedListQueue.front q
  = Some (match rest with [] => Null | v :: _ => v end).
Proof.
  intros (ls & Hch & _). unfold LinkedListQueue.front.
  destruct ls as [|l ls], rest as [|v rest]; simpl in Hch; try done.
  - by rewrite Hch.
  - destruct Hch as (-> & nx & -> & _). done.
Qed.

Lemma head_tail_represents (q : LinkedListQueue.queue A) rest :
  represents q rest →
  (LinkedListQueue.head q = None ↔ LinkedListQueue.tail q = None) ∧
  LinkedListQueue.size q = Z.of_nat (length rest).
Proof.
  intros (ls & Hch & _ & Htail & Hsize). split; [|done].
  rewrite Htail, last_None.
  destruct ls as [|l ls], rest as [|v rest]; simpl in Hch; try done.
  destruct Hch as (-> & _). done.
Qed.

Lemma seed_represents vals : ∀ (q : LinkedListQueue.queue A) vs,
  represents q vs →
  ∃ q', seed vals q = Some q' ∧ represents q' (vs ++ omap id vals).
Proof.
  induction vals as [|[val|] vals IH]; intros q vs Hrep; simpl.
  - exists q. by rewrite app_nil_r.
  - destruct (enqueue_represents val q vs Hrep) as (q1 & -> & Hrep1).
    simpl. destruct (IH q1 _ Hrep1) as (q' & -> & Hrep').
    exists q'. by rewrite <- app_assoc in Hrep'.
  - by apply IH.
Qed.

Lemma dequeue_n_represents vs : ∀ (q : LinkedListQueue.queue A),
  represents q vs →
  ∃ q', dequeue_n (length vs) q = Some (vs, q') ∧ represents q' [].
Proof.
  induction vs as [|v vs IH]; intros q Hrep; simpl.
  - by exists q.
  - destruct (dequeue_represents v q vs Hrep) as (q1 & -> & Hrep1).
    simpl. destruct (IH q1 Hrep1) as (q' & -> & Hrep').
    by exists q'.
Qed.
End QueueMore.

(** X15. After any sequence of [enqueue] and [dequeue] calls on a fresh
    array queue: [size()] is the number of enqueued items not yet given
    out, [isEmpty()] says whether that number is 0, [front()] is the
    oldest item not yet given out ([undefined] when there is none) and
    is what the next [dequeue()] returns, and [enqueue] returns the
    size it leaves. *)
Theorem queue_observers_agree {A : Type} (cs : list (qcall A)) :
  ∃ out q,
    run_queue cs Queue.new = (out, q) ∧
    Queue.size q + length out = length (enqueued cs) ∧
    (Queue.isEmpty q = true ↔ Queue.size q = 0) ∧
    Queue.front q = arr_get (enqueued cs) (length out) ∧
    Queue.front q = (Queue.dequeue q).1 ∧
    ∀ item, (Queue.enqueue item q).1 = S (Queue.size q) ∧
            Queue.size (Queue.enqueue item q).2 = S (Queue.size q).
Proof.
  destruct (run_queue cs Queue.new) as [out q] eqn:Hrun.
  exists out, q. apply run_queue_fifo in Hrun. simpl in Hrun.
  unfold Queue.size, Queue.front. split_and!; [done| | | | |].
  - rewrite <- Hrun, length_app. lia.
  - unfold Queue.isEmpty. by rewrite bool_decide_eq_true.
  - by rewrite <- Hrun, arr_get_app_r.
  - by destruct q.
  - intros item. unfold Queue.enqueue, Queue.size. simpl.
    by rewrite length_push.
Qed.

(** X16. After any sequence of [enqueue] and [dequeue] calls on a fresh
    linked queue no call has failed, the [size] field is the number of
    enqueued items not yet given out, [isEmpty()] says whether that
    number is 0, [head] is [null] exactly when [tail] is, [front()] is
    the oldest item not yet given out ([null] when there is none), and
    one more [enqueue] returns the size plus one. *)
Theorem linked_queue_observers_agree {A : Type} (cs : list (qcall A)) :
  ∃ out q,
    run_linked cs LinkedListQueue.new = Some (out, q) ∧
    (LinkedListQueue.size q + Z.of_nat (length out)
     = Z.of_nat (length (enqueued cs)))%Z ∧
    (LinkedListQueue.isEmpty q = true ↔ LinkedListQueue.size q = 0%Z) ∧
    (LinkedListQueue.head q = None ↔ LinkedListQueue.tail q = None) ∧
    LinkedListQueue.front q
      = Some (default Null (enqueued cs !! length out)) ∧
    ∀ item, ∃ q',
      LinkedListQueue.enqueue item q
        = Some ((LinkedListQueue.size q + 1)%Z, q') ∧
      LinkedListQueue.size q' = (LinkedListQueue.size q + 1)%Z.
Proof.
  destruct (run_linked_fifo cs LinkedListQueue.new [] represents_new)
    as (out & q & rest & Hrun & Hrep & Heq).
  simpl in Heq. exists out, q.
  destruct (head_tail_represents q rest Hrep) as [Hht Hsize].
  split_and!; [done| | |done| |].
  - rewrite Hsize, <- Heq, length_app. lia.
  - rewrite (isEmpty_represents q rest Hrep), Hsize.
    destruct rest; simpl; [done|]. split; [done|lia].
  - rewrite (front_represents q rest Hrep), <- Heq.
    rewrite lookup_app_r by lia. rewrite Nat.sub_diag. by destruct rest.
  - intros item.
    destruct (enqueue_represents item q rest Hrep) as (q' & Henq & Hrep').
    exists q'. rewrite Hsize. split; [done|].
    destruct (head_tail_represents q' _ Hrep') as [_ ->].
    rewrite length_app. simpl. lia.
Qed.

(** X17. [seed(vals)] on a linked queue reached by any calls never
    fails and puts the elements of [vals] behind the items already
    waiting, in their order, passing over the holes of a sparse array:
    the size grows by the number of elements that are there (at most
    [vals.length], and exactly that for an array without holes), and
    dequeuing as many times as there are items then returns the waiting
    items followed by those elements, and empties the queue. *)
Theorem seed_then_dequeue {A : Type} (cs : list (qcall A))
    (vals : list (option (jsval A))) :
  ∃ out q rest q1 q2,
    run_linked cs LinkedListQueue.new = Some (out, q) ∧
    out ++ rest = enqueued cs ∧
    seed vals q = Some q1 ∧
    LinkedListQueue.size q1
      = (LinkedListQueue.size q + Z.of_nat (length (omap id vals)))%Z ∧
    length (omap id vals) ≤ length vals ∧
    (∀ dense, vals = Some <$> dense → omap id vals = dense) ∧
    dequeue_n (length rest + length (omap id vals)) q1
      = Some (rest ++ omap id vals, q2) ∧
    LinkedListQueue.isEmpty q2 = true.
Proof.
  destruct (run_linked_fifo cs LinkedListQueue.new [] represents_new)
    as (out & q & rest & Hrun & Hrep & Heq).
  destruct (seed_represents vals q rest Hrep) as (q1 & Hseed & Hrep1).
  destruct (dequeue_n_represents (rest ++ omap id vals) q1 Hrep1)
    as (q2 & Hdeq & Hrep2).
  rewrite length_app in Hdeq.
  exists out, q, rest, q1, q2. split_and!; try done.
  - destruct (head_tail_represents q _ Hrep) as [_ ->].
    destruct (head_tail_represents q1 _ Hrep1) as [_ ->].
    rewrite length_app. lia.
  - clear. induction vals as [|[v|] vals IH]; unfold omap in *; simpl; lia.
  - intros dense ->. clear. induction dense as [|v dense IH]; [done|].
    simpl. f_equal. exact IH.
  - by apply (isEmpty_represents q2 [] Hrep2).
Qed.

(** ** Nothing is lost between the array and the results *)

Section Conservation.
Import MinHeap.
Implicit Types (h : list value).

Lemma taken_conserves cs : ∀ h,
  1 ≤ length h →
  ∃ vs h' out,
    run cs h = Some (vs, h') ∧ taken cs h = Some out ∧
    1 ≤ length h' ∧
    out ++ h' ≡ₚ h ++ (Val <$> inserted cs).
Proof.
  induction cs as [|c cs IH]; intros h Hlen.
  - exists [], h, []. simpl. by rewrite app_nil_r.
  - destruct (step_total c h) as [[v h1] Hstep]. simpl. rewrite Hstep. simpl.
    assert (1 ≤ length h1 ∧
            match c with
            | CInsert num => h1 ≡ₚ h ++ [Val num]
            | CExtract => if decide (length h = 1) then h1 = h
                          else h ≡ₚ v :: h1
            | CTop => h1 = h
            end) as [Hlen1 Hc].
    { destruct c as [|num|]; simpl in Hstep.
      - unfold top in Hstep. by simplify_eq.
      - destruct (insert (Val num) h) as [h2|] eqn:Hi; simpl in Hstep;
          [|done].
        simplify_eq. pose proof (insert_perm _ _ _ Hi) as Hp.
        split; [|done]. apply Permutation_length in Hp.
        rewrite length_app in Hp. simpl in Hp. lia.
      - case_decide as Hone.
        + unfold extract in Hstep. rewrite decide_True in Hstep by done.
          by simplify_eq.
        + apply extract_perm in Hstep as (_ & Hp & Hl); [|lia].
          split; [lia|done]. }
    destruct (IH h1 Hlen1) as (vs & h' & out & -> & -> & Hlen' & Hperm).
    simpl.
    destruct c as [|num|]; simpl.
    + subst h1. by exists (v :: vs), h', out.
    + exists (v :: vs), h', out. split_and!; [done..|].
      rewrite Hperm, Hc. by rewrite <- app_assoc.
    + case_decide as Hone.
      * subst h1. by exists (v :: vs), h', out.
      * exists (v :: vs), h', (v :: out). split_and!; [done..|].
        simpl. by rewrite Hperm, Hc.
Qed.
End Conservation.

(** X18. Over any sequence of calls on a fresh heap, with any integers,
    nothing is lost or made up: what the successful [extract] calls
    returned, together with what the array still holds, is the [null]
    placeholder and the inserted numbers, each as often as it was
    inserted. *)
Theorem calls_conserve_values (cs : list MinHeap.call) :
  ∃ vs h out,
    MinHeap.run cs MinHeap.new = Some (vs, h) ∧
    taken cs MinHeap.new = Some out ∧
    out ++ h ≡ₚ Null :: (Val <$> inserted cs).
Proof.
  destruct (taken_conserves cs MinHeap.new) as (vs & h & out & ? & ? & _ & ?);
    [simpl; lia|].
  by exists vs, h, out.
Qed.
